(** * RenderGuard steganographic AEAD codec: writer/reader agreement

    Shallow embedding of the codec of [src/encoder.py] (the Python writer)
    and of the reader embedded in the article page of [app.py] (the
    JavaScript functions [lsbBitsToBytes], [extractDataFromPng] and
    [extractAndDecryptPng], and the Python function
    [read_article_mapping]).

    Conventions.
    - Python integers and JavaScript numbers that hold integers are [Z];
      loop counters, lengths and indices, which never go negative, are
      [nat].  JavaScript's bit operators go through [ToInt32], a typed-array
      store through [ToUint8].
    - A Python [bytes] value, a Python list of bits and a JavaScript array
      of numbers are [list Z].
    - Python exceptions and JavaScript throws are the left injection of a
      sum ([Raise]), normal results the right one ([Ok]). *)

From Stdlib Require Import ZArith Lia Ascii.
From stdpp Require Import base list gmap strings sorting.

(** ** Results of fallible code *)

Inductive exn : Set :=
  (* Python *)
  | DataTooLarge (bit_len max_bits : nat)
      (* ValueError("Data too large! Need .. bits, image only supports ..") *)
  | IndexError          (* sequence or pixel index out of range *)
  | InvalidLiteral      (* ValueError of [int] on a string it cannot read *)
  | UnpackError         (* ValueError of a tuple assignment of the wrong size *)
  | EmptyMappingFile    (* RuntimeError("Mapping file is empty") *)
  | StructError         (* struct.error: argument of [struct.pack] out of range *)
  | InvalidKey          (* the AES-GCM constructor refuses the key *)
  | EncryptError        (* the AES-GCM encryption call fails *)
  (* JavaScript *)
  | DataTooLong (needBits maxBits : nat)
      (* Error("Data too long! Need .. bits, image only has .. bits") *)
  | RangeError          (* a DataView that does not fit its buffer *)
  | OperationError.     (* WebCrypto refuses to decrypt *)

Definition result (A : Type) : Type := exn + A.
Definition Ok {A} (a : A) : result A := inr a.
Definition Raise {A} (e : exn) : result A := inl e.

Global Instance result_ret : MRet result := λ A a, inr a.
Global Instance result_bind : MBind result := λ A B k m,
  match m with
  | inl e => inl e
  | inr a => k a
  end.

(** Python [seq[i]] for an index that is not negative. *)
Definition py_index {A} (l : list A) (i : nat) : result A :=
  match l !! i with
  | Some x => Ok x
  | None => Raise IndexError
  end.

Definition is_byte (x : Z) : Prop := (0 ≤ x < 256)%Z.
Definition is_bit (x : Z) : Prop := x = 0%Z ∨ x = 1%Z.

(** ** JavaScript number primitives used by the reader *)

Definition ToInt32 (z : Z) : Z := ((z + 2 ^ 31) mod 2 ^ 32 - 2 ^ 31)%Z.
Definition ToUint8 (z : Z) : Z := (z mod 256)%Z.

(** An array read outside the array is [undefined], which the bit operators
    convert to 0. *)
Definition js_num (v : option Z) : Z := default 0%Z v.

Definition js_shl (a n : Z) : Z := ToInt32 (Z.shiftl (ToInt32 a) (n mod 32)).
Definition js_or (a b : Z) : Z := Z.lor (ToInt32 a) (ToInt32 b).
Definition js_and (a b : Z) : Z := Z.land (ToInt32 a) (ToInt32 b).

(** ** Library interfaces

    The codec calls into libraries whose code is not part of the
    repository.  They are taken as interfaces; every definition and theorem
    below holds for whatever implements them. *)

(** Python: the AES-GCM class of the [cryptography] package, [os.urandom]
    and [str.encode("utf-8")]. *)
Class PyCrypto : Type := {
  aesgcm : Type;                                   (* an [AESGCM] object *)
  AESGCM : list Z → result aesgcm;                 (* [AESGCM(key)] *)
  AESGCM_encrypt : aesgcm → list Z → list Z → result (list Z);
                                                   (* [.encrypt(nonce, data, None)] *)
  os_urandom : nat → list Z;                       (* [os.urandom(n)] *)
  os_urandom_length : ∀ n, length (os_urandom n) = n;
  utf8_encode : string → list Z                    (* [s.encode("utf-8")] *)
}.

(** JavaScript: [crypto.subtle] and [TextDecoder]. *)
Class WebCrypto : Type := {
  cryptokey : Type;
  subtle_importKey : list Z → result cryptokey;    (* raw key, AES-GCM, decrypt *)
  subtle_decrypt : cryptokey → list Z → list Z → result (list Z);
                                                   (* iv, data *)
  utf8_decode : list Z → string
}.

(** Python: the string operations used to read the mapping file. *)
Class PyStr : Type := {
  str_strip : string → string;                     (* [s.strip()] *)
  str_split_tab : string → list string;            (* [s.split("\t")] *)
  splitext : string → string * string;             (* [os.path.splitext(p)] *)
  py_int : string → option Z                       (* [int(s)], [None] for ValueError *)
}.

(** ** Carrier images

    The writer works on a PIL image in mode RGB: its size and one
    [(r, g, b)] triple per pixel, kept here in row-major order, so that the
    pixel at column [x] of row [y] is entry [y * width + x]. *)

Definition pixel : Type := Z * Z * Z.

Record image : Type := Image {
  img_width : nat;
  img_height : nat;
  img_pixels : list pixel
}.

Definition wf_image (img : image) : Prop :=
  length (img_pixels img) = img_width img * img_height img.

(** What the reader's canvas hands out: [ImageData.data] is a flat array of
    four bytes (red, green, blue, alpha) per pixel, rows first. *)
Record ImageData : Type := mkImageData {
  id_width : nat;
  id_height : nat;
  id_data : list Z
}.

(** Drawing the saved carrier on a canvas and reading it back: the PNG is
    lossless and the RGB image has no alpha, so every pixel is opaque. *)
Definition getImageData (img : image) : ImageData :=
  {| id_width := img_width img;
     id_height := img_height img;
     id_data := flat_map (λ '(r, g, b), [r; g; b; 255%Z]) (img_pixels img) |}.

(** Code that mutates the pixel buffer of the opened image and may raise:
    a state and error monad over the buffer. *)
Definition PixM (A : Type) : Type := list pixel → result A * list pixel.

Global Instance PixM_ret : MRet PixM := λ A a buf, (inr a, buf).
Global Instance PixM_bind : MBind PixM := λ A B k m buf,
  match m buf with
  | (inl e, buf') => (inl e, buf')
  | (inr a, buf') => k a buf'
  end.

Definition lift {A} (r : result A) : PixM A := λ buf, (r, buf).

(** [pixels[x, y]] read and write of PIL's pixel access object; a
    coordinate outside the image raises [IndexError]. *)
Definition getpixel (w h x y : nat) : PixM pixel := λ buf,
  if (x <? w) && (y <? h) then (py_index buf (y * w + x), buf)
  else (Raise IndexError, buf).

Definition putpixel (w h x y : nat) (p : pixel) : PixM unit := λ buf,
  if (x <? w) && (y <? h) && (y * w + x <? length buf)
  then (Ok (), <[y * w + x := p]> buf)
  else (Raise IndexError, buf).

(** How a loop body ends: it falls through to the next iteration or it
    executes [break]. *)
Inductive ctl : Set := Continue | Break.

(** ** The writer: [src/encoder.py] *)

Module encoder.

(** *** Bit planner *)

(** [range(7, -1, -1)] *)
Definition range_7_down : list Z := [7; 6; 5; 4; 3; 2; 1; 0]%Z.

(** [bits.append((b >> i) & 1)] for [i] from 7 down to 0, one byte. *)
Definition append_byte_bits (bits : list Z) (b : Z) : list Z :=
  fold_left (fun bits i => bits ++ [Z.land (Z.shiftr b i) 1]) range_7_down bits.

Definition bytes_to_lsb_bits (data : list Z) : list Z :=
  fold_left append_byte_bits data [].

(** *** LSB embedder *)

Section embed_loop.
Variables (w h : nat) (bits : list Z) (bit_len : nat).

(** The body of the [for x] loop, lines 99 to 122. *)
Definition embed_pixel (x y bit_idx : nat) : PixM (ctl * nat) :=
  if bit_len <=? bit_idx then mret (Break, bit_idx)
  else
    '(r, g, b) ← getpixel w h x y;
    (* R channel *)
    v ← lift (py_index bits bit_idx);
    let r := Z.lor (Z.land r 254) v in
    let bit_idx := bit_idx + 1 in
    if bit_len <=? bit_idx
    then _ ← putpixel w h x y (r, g, b); mret (Break, bit_idx)
    else
      (* G channel *)
      v ← lift (py_index bits bit_idx);
      let g := Z.lor (Z.land g 254) v in
      let bit_idx := bit_idx + 1 in
      if bit_len <=? bit_idx
      then _ ← putpixel w h x y (r, g, b); mret (Break, bit_idx)
      else
        (* B channel *)
        v ← lift (py_index bits bit_idx);
        let b := Z.lor (Z.land b 254) v in
        let bit_idx := bit_idx + 1 in
        _ ← putpixel w h x y (r, g, b);
        mret (Continue, bit_idx).

(** [for x in range(w)], over the columns still to visit. *)
Fixpoint embed_row (xs : list nat) (y bit_idx : nat) : PixM nat :=
  match xs with
  | [] => mret bit_idx
  | x :: xs' =>
      '(c, bit_idx) ← embed_pixel x y bit_idx;
      match c with
      | Break => mret bit_idx
      | Continue => embed_row xs' y bit_idx
      end
  end.

(** [for y in range(h)], with the [break] that follows the inner loop. *)
Fixpoint embed_rows (ys : list nat) (bit_idx : nat) : PixM nat :=
  match ys with
  | [] => mret bit_idx
  | y :: ys' =>
      bit_idx ← embed_row (seq 0 w) y bit_idx;
      if bit_len <=? bit_idx then mret bit_idx
      else embed_rows ys' bit_idx
  end.
End embed_loop.

(** [embed_data_in_png] from the point where the carrier is open and the
    bit list is known (lines 86 to 127).  The first component is the
    exception raised or the image that [img.save] writes; the second is
    the in-memory carrier when the call ends. *)
Definition embed_bits (img : image) (bits : list Z) : result image * image :=
  let w := img_width img in
  let h := img_height img in
  let bit_len := length bits in
  let max_bits := w * h * 3 in
  if max_bits <? bit_len then (Raise (DataTooLarge bit_len max_bits), img)
  else
    match embed_rows w h bits bit_len (seq 0 h) 0 (img_pixels img) with
    | (inl e, buf) => (Raise e, Image w h buf)
    | (inr _, buf) => (Ok (Image w h buf), Image w h buf)
    end.

(** The paths are replaced by the images they name: [img] is the carrier
    that [Image.open(input_png).convert("RGB")] returns, and the image
    saved to [output_png] is the first component of the result.  Creating
    the output directory, a carrier file that does not exist and the
    message printed at the end are outside this model. *)
Definition embed_data_in_png (img : image) (data : list Z) : result image * image :=
  embed_bits img (bytes_to_lsb_bits data).

(** *** AEAD engine and payload framer *)

(** [struct.pack(">I", n)] *)
Definition struct_pack_be32 (n : Z) : result (list Z) :=
  if ((0 <=? n) && (n <? 2 ^ 32))%Z
  then Ok [Z.land (Z.shiftr n 24) 255; Z.land (Z.shiftr n 16) 255;
           Z.land (Z.shiftr n 8) 255; Z.land n 255]
  else Raise StructError.

Section aead.
Context `{PyCrypto}.

Definition aes_gcm_encrypt (plaintext : string) (key : list Z)
    : result (list Z * list Z) :=
  aesgcm ← AESGCM key;
  let nonce := os_urandom 12 in
  let pt_bytes := utf8_encode plaintext in
  ct ← AESGCM_encrypt aesgcm nonce pt_bytes;
  mret (nonce, ct).

(** The payload that [encrypt_and_embed] hands to the embedder. *)
Definition build_payload (nonce ct : list Z) : result (list Z) :=
  let ct_len := length ct in
  packed ← struct_pack_be32 (Z.of_nat ct_len);
  mret (nonce ++ packed ++ ct).

(** The result is the returned length together with the image saved
    to [output_png]. *)
Definition encrypt_and_embed (plaintext : string) (key : list Z) (img : image)
    : result (nat * image) :=
  '(nonce, ct) ← aes_gcm_encrypt plaintext key;
  payload ← build_payload nonce ct;
  saved ← (embed_data_in_png img payload).1;
  mret (length payload, saved).
End aead.

End encoder.

(** ** The reader and the registry: [app.py] *)

Module app.

(** *** Bit planner *)

(** The inner loop of [lsbBitsToBytes]: [j] runs over the remaining
    values of [0..7], [byte] is the accumulator.  The guard is the
    source's [i + j >= bits.length]. *)
Fixpoint byte_loop (bits : list Z) (i : nat) (js : list nat) (byte : Z) : Z :=
  match js with
  | [] => byte
  | j :: js' =>
      if length bits <=? i + j then byte
      else byte_loop bits i js' (js_or (js_shl byte 1) (js_num (bits !! (i * 8 + j))))
  end.

Definition lsbBitsToBytes (bits : list Z) : list Z :=
  let n := length bits / 8 in
  fold_left (fun data i => <[i := ToUint8 (byte_loop bits i (seq 0 8) 0)]> data)
            (seq 0 n) (replicate n 0%Z).

(** *** LSB extractor *)

Section extract_loop.
Variables (pixels : list Z) (w h needBits : nat).

(** The body of the [for x] loop, lines 406 to 416.  The state is the
    array [bits] and the counter [bitIdx]. *)
Definition extract_pixel (x y : nat) (st : list Z * nat) : ctl * (list Z * nat) :=
  let '(bits, bitIdx) := st in
  let off := (y * w + x) * 4 in
  let r := pixels !! off in
  let g := pixels !! (off + 1) in
  let b := pixels !! (off + 2) in
  let bits := bits ++ [js_and (js_num r) 1] in
  let bitIdx := bitIdx + 1 in
  if needBits <=? bitIdx then (Break, (bits, bitIdx))
  else
    let bits := bits ++ [js_and (js_num g) 1] in
    let bitIdx := bitIdx + 1 in
    if needBits <=? bitIdx then (Break, (bits, bitIdx))
    else
      let bits := bits ++ [js_and (js_num b) 1] in
      let bitIdx := bitIdx + 1 in
      if needBits <=? bitIdx then (Break, (bits, bitIdx))
      else (Continue, (bits, bitIdx)).

(** [for (let x = 0; x < w && bitIdx < needBits; x++)] *)
Fixpoint extract_row (xs : list nat) (y : nat) (st : list Z * nat) : list Z * nat :=
  match xs with
  | [] => st
  | x :: xs' =>
      if snd st <? needBits then
        match extract_pixel x y st with
        | (Break, st') => st'
        | (Continue, st') => extract_row xs' y st'
        end
      else st
  end.

(** [for (let y = 0; y < h && bitIdx < needBits; y++)] *)
Fixpoint extract_rows (ys : list nat) (st : list Z * nat) : list Z * nat :=
  match ys with
  | [] => st
  | y :: ys' =>
      if snd st <? needBits then extract_rows ys' (extract_row (seq 0 w) y st)
      else st
  end.
End extract_loop.

(** [extractDataFromPng] from the capacity gate to the end of the loops:
    the array [bits] for a request of [needBits] bits. *)
Definition extract_bits (img : ImageData) (needBits : nat) : result (list Z) :=
  let pixels := id_data img in
  let w := id_width img in
  let h := id_height img in
  let maxBits := w * h * 3 in
  if maxBits <? needBits then Raise (DataTooLong needBits maxBits)
  else Ok (fst (extract_rows pixels w needBits (seq 0 h) ([], 0))).

(** [dataLen] is the payload length of the mapping record, a count of
    bytes. *)
Definition extractDataFromPng (img : ImageData) (dataLen : nat) : result (list Z) :=
  bits ← extract_bits img (dataLen * 8);
  mret (lsbBitsToBytes bits).

(** *** Payload framer and AEAD engine of the reader *)

(** [a.slice(start, end)] of a typed array, for indices that are not
    negative: both ends are clamped to the array. *)
Definition slice (a : list Z) (start stop : nat) : list Z :=
  take (stop - start) (drop start a).

(** [new DataView(buffer, off, 4).getUint32(0, false)]: the view must fit
    the buffer, the four bytes are read big-endian. *)
Definition getUint32_be (buffer : list Z) (off : nat) : result Z :=
  if length buffer <? off + 4 then Raise RangeError
  else
    let b i := js_num (buffer !! (off + i)) in
    Ok (b 0%nat * 2 ^ 24 + b 1%nat * 2 ^ 16 + b 2%nat * 2 ^ 8 + b 3%nat)%Z.

(** Lines 434 to 437 of [extractAndDecryptPng]: the fields cut out of the
    extracted payload. *)
Definition unframe (payload : list Z) : result (list Z * Z * list Z) :=
  let nonce := slice payload 0 12 in
  ctLen ← getUint32_be payload 12;
  let ct := slice payload 16 (16 + Z.to_nat ctLen) in
  mret (nonce, ctLen, ct).

Section aead.
Context `{WebCrypto}.

Definition aesGcmDecrypt (nonce ct key : list Z) : result string :=
  cryptoKey ← subtle_importKey key;
  plainBuf ← subtle_decrypt cryptoKey nonce ct;
  mret (utf8_decode plainBuf).

Definition extractAndDecryptPng (key : list Z) (img : ImageData)
    (totalPayloadLen : nat) : result string :=
  payload ← extractDataFromPng img totalPayloadLen;
  '(nonce, ctLen, ct) ← unframe payload;
  aesGcmDecrypt nonce ct key.
End aead.

(** *** Mapping registry *)

Record entry : Type := Entry {
  id : string;
  img_path : string;
  aes_key_b64 : string;
  payload_len : Z
}.

Section registry.
Context `{PyStr}.

(** [for line in lines[1:]], with [mp] the dictionary built so far. *)
Fixpoint mapping_loop (lines : list string) (mp : gmap string entry)
    : result (gmap string entry) :=
  match lines with
  | [] => Ok mp
  | line :: rest =>
      let line := str_strip line in
      if decide (line = EmptyString) then mapping_loop rest mp
      else
        let parts := str_split_tab line in
        if decide (length parts ≠ 4) then mapping_loop rest mp
        else
          match parts with
          | [article_id; img_path; aes_key_b64; payload_len] =>
              let article_key := (splitext article_id).1 in
              match py_int payload_len with
              | None => Raise InvalidLiteral
              | Some n =>
                  mapping_loop rest
                    (<[article_key := Entry article_key img_path aes_key_b64 n]> mp)
              end
          | _ => Raise UnpackError
          end
  end.

(** [lines] is what [f.readlines()] returns. *)
Definition read_article_mapping (lines : list string)
    : result (gmap string entry) :=
  match lines with
  | [] => Raise EmptyMappingFile
  | _ :: rest => mapping_loop rest ∅
  end.
End registry.

End app.

(** ** Instances for running the code

    Stand-ins for the libraries, used to evaluate the definitions on
    concrete inputs. *)

(** The AES-GCM constructor takes keys of 128, 192 or 256 bits, as the
    [cryptography] package documents; the cipher keeps the shape of AES-GCM
    (the ciphertext is as long as the plaintext and is followed by a tag of
    16 bytes) without being AES; the random source gives zero bytes; text is
    one byte per character. *)
Definition test_key_ok (key : list Z) : bool :=
  bool_decide (length key = 16 ∨ length key = 24 ∨ length key = 32).

Definition text_bytes (s : string) : list Z :=
  map (λ c, Z.of_nat (Ascii.nat_of_ascii c)) (String.list_ascii_of_string s).

Definition bytes_text (b : list Z) : string :=
  String.string_of_list_ascii (map (λ x, ascii_of_nat (Z.to_nat x)) b).

Definition test_tag : list Z := replicate 16 0%Z.

Global Instance test_crypto : PyCrypto := {|
  aesgcm := list Z;
  AESGCM key := if test_key_ok key then Ok key else Raise InvalidKey;
  AESGCM_encrypt _ _ data := Ok (data ++ test_tag);
  os_urandom n := replicate n 0%Z;
  os_urandom_length n := length_replicate n 0%Z;
  utf8_encode := text_bytes
|}.

Global Instance test_webcrypto : WebCrypto := {|
  cryptokey := list Z;
  subtle_importKey key := if test_key_ok key then Ok key else Raise OperationError;
  subtle_decrypt _ _ data :=
    let n := length data - 16 in
    if bool_decide (16 ≤ length data ∧ drop n data = test_tag)
    then Ok (take n data) else Raise OperationError;
  utf8_decode := bytes_text
|}.

(** Python's string operations on the characters below 256 (POSIX paths).
    [str.isspace] holds there of the control characters 9 to 13 and 28 to
    31, the space, U+0085 and U+00A0. *)
Definition py_isspace (c : ascii) : bool :=
  let n := Ascii.nat_of_ascii c in
  ((9 <=? n) && (n <=? 13)) || ((28 <=? n) && (n <=? 31)) || (n =? 32)
  || (n =? 133) || (n =? 160).

Fixpoint lstrip (s : list ascii) : list ascii :=
  match s with
  | c :: s' => if py_isspace c then lstrip s' else s
  | [] => []
  end.

Definition strip (s : string) : string :=
  String.string_of_list_ascii
    (rev (lstrip (rev (lstrip (String.list_ascii_of_string s))))).

(** [cur] holds the characters of the current field, last one first. *)
Fixpoint split_go (sep : ascii) (cur : list ascii) (s : list ascii) : list string :=
  match s with
  | [] => [String.string_of_list_ascii (rev cur)]
  | c :: s' =>
      if decide (c = sep) then String.string_of_list_ascii (rev cur) :: split_go sep [] s'
      else split_go sep (c :: cur) s'
  end.

Definition tab : ascii := "009"%char.
Definition newline : ascii := "010"%char.

Definition split_tab (s : string) : list string :=
  split_go tab [] (String.list_ascii_of_string s).

(** The index of the last occurrence of [c], counted from [i]. *)
Fixpoint rfind_from (c : ascii) (i : nat) (s : list ascii) : option nat :=
  match s with
  | [] => None
  | x :: s' =>
      match rfind_from c (S i) s' with
      | Some j => Some j
      | None => if decide (x = c) then Some i else None
      end
  end.

Definition posix_splitext (p : string) : string * string :=
  let l := String.list_ascii_of_string p in
  let start := from_option S 0 (rfind_from "/"%char 0 l) in
  match rfind_from "."%char 0 l with
  | Some dot =>
      if (start <=? dot)
         && existsb (λ c, negb (bool_decide (c = "."%char))) (take (dot - start) (drop start l))
      then (String.string_of_list_ascii (take dot l),
            String.string_of_list_ascii (drop dot l))
      else (p, EmptyString)
  | None => (p, EmptyString)
  end.

Definition digit_val (c : ascii) : option Z :=
  let n := Ascii.nat_of_ascii c in
  if (48 <=? n) && (n <=? 57) then Some (Z.of_nat (n - 48)) else None.

(** Decimal digits, single underscores allowed between two digits. *)
Fixpoint digits_val (acc : Z) (after_digit : bool) (s : list ascii) : option Z :=
  match s with
  | [] => if after_digit then Some acc else None
  | c :: s' =>
      match digit_val c with
      | Some d => digits_val (10 * acc + d) true s'
      | None =>
          if bool_decide (c = "_"%char) && after_digit then digits_val acc false s'
          else None
      end
  end.

Definition int_of_str (s : string) : option Z :=
  match String.list_ascii_of_string (strip s) with
  | c :: s' =>
      if bool_decide (c = "-"%char) then Z.opp <$> digits_val 0 false s'
      else if bool_decide (c = "+"%char) then digits_val 0 false s'
      else digits_val 0 false (c :: s')
  | [] => None
  end.

Global Instance ascii_str : PyStr := {|
  str_strip := strip;
  str_split_tab := split_tab;
  splitext := posix_splitext;
  py_int := int_of_str
|}.

(** The header that the batch encoder writes, and two record lines. *)
Fixpoint cat_tab (fields : list string) : string :=
  match fields with
  | [] => EmptyString
  | [f] => f
  | f :: rest => String.append f (String tab (cat_tab rest))
  end.

Definition nl (s : string) : string := String.append s (String newline EmptyString).

Definition header_line : string :=
  nl (cat_tab ["ARTICLE_NAME"; "IMAGE_PATH"; "AES_KEY_B64"; "PAYLOAD_LEN"]).

(** ** The rest of [app.py]: request filter and pages

    Text is a sequence of 8-bit characters: the value of an HTTP header as
    the server hands it to the application, and the bytes of any other
    text.  The tests made here look for ASCII characters only. *)

Definition chars (s : string) : list ascii := String.list_ascii_of_string s.
Definition text (l : list ascii) : string := String.string_of_list_ascii l.

(** [p in s] for two strings, and [s.startswith(p)]. *)
Fixpoint starts_with (p s : list ascii) : bool :=
  match p, s with
  | [], _ => true
  | c :: p', d :: s' => bool_decide (c = d) && starts_with p' s'
  | _ :: _, [] => false
  end.

Fixpoint str_in (p s : list ascii) : bool :=
  starts_with p s
  || match s with
     | [] => false
     | _ :: s' => str_in p s'
     end.

Definition in_range (lo hi c : nat) : bool := (lo <=? c) && (c <=? hi).

Module routes.

Definition AI_KEYWORDS : list string :=
  ["bot"; "crawler"; "spider"; "curl"; "wget"; "python"; "requests"; "scrapy";
   "playwright"; "puppeteer"; "chatgpt"; "gpt"; "claude"; "bingbot";
   "googlebot"; "baiduspider"].

(** [str.lower] on the characters below 256: the capital letters A to Z
    and the capital letters of Latin-1 move up by 32. *)
Definition lower_char (c : ascii) : ascii :=
  let n := nat_of_ascii c in
  if in_range 65 90 n || (in_range 192 222 n && negb (n =? 215))
  then ascii_of_nat (n + 32) else c.

Definition str_lower (s : string) : string := text (map lower_char (chars s)).

Definition is_digit (c : ascii) : bool := in_range 48 57 (nat_of_ascii c).

(** The rest of [s] after its longest prefix of digits, and whether that
    prefix is empty: the greedy [\d+]. *)
Fixpoint skip_digits (s : list ascii) : list ascii :=
  match s with
  | c :: s' => if is_digit c then skip_digits s' else s
  | [] => []
  end.

Definition digits_plus (s : list ascii) : option (list ascii) :=
  match s with
  | c :: s' => if is_digit c then Some (skip_digits s') else None
  | [] => None
  end.

(** [re.match(r'^python-requests/\d+\.\d+', s)], as a truth value. *)
Definition match_python_requests (s : list ascii) : bool :=
  starts_with (chars "python-requests/") s
  && match digits_plus (drop 16 s) with
     | Some ("."%char :: s') => bool_decide (is_Some (digits_plus s'))
     | _ => false
     end.

(** The bodies of the responses: the HTML templates of the source, of
    which the values filled in are kept. *)
Inductive body : Type :=
  | NoBody
  | DeniedBody
  | NotFoundBody (article_id : string)
  | IndexBody (base_img_b64 : string) (links : list string)
  | ArticleBody (article_id aes_key_b64 : string) (payload_len : Z)
                (img_b64 base_img_b64 : string).

(** [user_agent] is the User-Agent header, [None] when the request has
    none. *)
Definition reject_ai_crawler (user_agent : option string) : bool * body * nat :=
  let user_agent := str_lower (default EmptyString user_agent) in
  if existsb (λ k, str_in (chars k) (chars user_agent)) AI_KEYWORDS
     || match_python_requests (chars user_agent)
  then (true, DeniedBody, 403)
  else (false, NoBody, 200).

(** The complement of the class [[^a-zA-Z0-9_\-]]. *)
Definition safe_char (c : ascii) : bool :=
  let n := nat_of_ascii c in
  in_range 97 122 n || in_range 65 90 n || in_range 48 57 n
  || (n =? 95) || (n =? 45).

Definition safe_title (s : string) : string :=
  text (List.filter safe_char (chars s)).

(** An exception that leaves a page function: the server answers 500. *)
Inductive failure : Type :=
  | MappingFailed (e : exn)
  | FileNotFound (path : string).

Section pages.
Context `{PyStr}.
(** The files on the server: the content behind a path, if there is one;
    the lines of the mapping file; the path of the base image; and
    [base64.b64encode(..).decode()]. *)
Variables (files : string → option (list Z)) (mapping_lines : list string)
          (INPUT_PNG : string) (b64encode : list Z → string).

Definition img_to_base64 (img_path : string) : failure + string :=
  match files img_path with
  | Some content => inr (String.append "data:image/png;base64," (b64encode content))
  | None => inl (FileNotFound img_path)
  end.

Definition load_mapping : failure + gmap string app.entry :=
  match app.read_article_mapping mapping_lines with
  | inl e => inl (MappingFailed e)
  | inr mapping => inr mapping
  end.

(** [sorted(mapping.keys())] *)
Definition sorted_keys (mapping : gmap string app.entry) : list string :=
  merge_sort String.le (map_to_list mapping).*1.

Definition index_page (user_agent : option string) : failure + body * nat :=
  let '(blocked, html, code) := reject_ai_crawler user_agent in
  if blocked then inr (html, code)
  else
    match load_mapping with
    | inl f => inl f
    | inr mapping =>
        match img_to_base64 INPUT_PNG with
        | inl f => inl f
        | inr base_img_b64 =>
            let ids := sorted_keys mapping in
            inr (IndexBody base_img_b64 (map safe_title ids), 200)
        end
    end.

Definition article_page (user_agent : option string) (article_id : string)
    : failure + body * nat :=
  let '(blocked, html, code) := reject_ai_crawler user_agent in
  if blocked then inr (html, code)
  else
    let article_id := safe_title article_id in
    match load_mapping with
    | inl f => inl f
    | inr mapping =>
        match mapping !! article_id with
        | None => inr (NotFoundBody article_id, 404)
        | Some art =>
            match img_to_base64 INPUT_PNG with
            | inl f => inl f
            | inr base_img_b64 =>
                match img_to_base64 (app.img_path art) with
                | inl f => inl f
                | inr img_b64 =>
                    inr (ArticleBody article_id (app.aes_key_b64 art)
                           (app.payload_len art) img_b64 base_img_b64, 200)
                end
            end
        end
    end.
End pages.

End routes.

(** ** [read_article_mapping] from the path

    Lines 73 and 74 open the file and read its lines before anything is
    parsed; an exception of [open] or of the decoding leaves the
    function. *)

Module app_file.
Section from_path.
Context `{PyStr}.
Context {FileError : Type}.

(** [open(mapping_file, "r", encoding="utf-8")] and [f.readlines()]: the
    lines, or the exception raised. *)
Variable open_readlines : string → FileError + list string.

Definition read_article_mapping (mapping_file : string)
    : FileError + result (gmap string app.entry) :=
  match open_readlines mapping_file with
  | inl err => inl err
  | inr lines => inr (app.read_article_mapping lines)
  end.
End from_path.
End app_file.

(** ** [aes_gcm_encrypt] with its library calls in order

    The four statements of lines 34 to 37 again, each library call written
    to a log when it is made.  The log of a run says what the function has
    done by the time it returns or an exception leaves it. *)

Module encoder_calls.

Inductive call : Type :=
| Call_AESGCM (key : list Z)              (* [AESGCM(key)] *)
| Call_urandom (n : nat)                  (* [os.urandom(n)] *)
| Call_encode (s : string)                (* [s.encode("utf-8")] *)
| Call_encrypt (nonce data : list Z).     (* [aesgcm.encrypt(nonce, data, None)] *)

Definition CallM (A : Type) : Type := list call → result A * list call.

Global Instance CallM_ret : MRet CallM := λ A a log, (inr a, log).
Global Instance CallM_bind : MBind CallM := λ A B k m log,
  match m log with
  | (inl e, log') => (inl e, log')
  | (inr a, log') => k a log'
  end.

(** The call [c] is made and gives [r]. *)
Definition library {A} (c : call) (r : result A) : CallM A := λ log, (r, log ++ [c]).

Section aead.
Context `{PyCrypto}.

Definition aes_gcm_encrypt (plaintext : string) (key : list Z)
    : CallM (list Z * list Z) :=
  aesgcm ← library (Call_AESGCM key) (AESGCM key);
  nonce ← library (Call_urandom 12) (Ok (os_urandom 12));
  pt_bytes ← library (Call_encode plaintext) (Ok (utf8_encode plaintext));
  ct ← library (Call_encrypt nonce pt_bytes) (AESGCM_encrypt aesgcm nonce pt_bytes);
  mret (nonce, ct).
End aead.

End encoder_calls.

(** ** The batch of [src/encoder.py]: the lines of the mapping file *)

Module encoder_main.

Definition digit_char (d : nat) : ascii := ascii_of_nat (48 + d).

(** The decimal digits of [n] in front of [acc]; [fuel] bounds the number
    of digits. *)
Fixpoint nat_digits (fuel n : nat) (acc : list ascii) : list ascii :=
  match fuel with
  | 0 => acc
  | S fuel' =>
      let acc' := digit_char (n mod 10) :: acc in
      if n / 10 =? 0 then acc' else nat_digits fuel' (n / 10) acc'
  end.

(** How an f-string prints an integer that is not negative. *)
Definition str_of_nat (n : nat) : string := text (nat_digits (S n) n []).

(** Line 177: the header. *)
Definition mapping_header : string :=
  nl (cat_tab ["ARTICLE_NAME"; "IMAGE_PATH"; "AES_KEY_B64"; "PAYLOAD_LEN"]).

(** Line 207: the record of one article. *)
Definition mapping_record (txt_file output_png aes_key_b64 : string)
    (payload_len : nat) : string :=
  nl (cat_tab [txt_file; output_png; aes_key_b64; str_of_nat payload_len]).

(** What the batch has for an article when it reaches line 207:
    [payload_len] is the value that [encrypt_and_embed] returned. *)
Record written := Written {
  txt_file : string;
  output_png : string;
  aes_key_b64 : string;
  payload_len : nat
}.

(** The lines of the mapping file after a batch that reached line 207 for
    the articles [rs], in this order. *)
Definition mapping_file (rs : list written) : list string :=
  mapping_header
  :: map (λ r, mapping_record (txt_file r) (output_png r) (aes_key_b64 r)
                 (payload_len r)) rs.

End encoder_main.

(** ** [src/article_parser.py]: the passage and its options

    A Python [str] is a sequence of code points.  [isspace] tells which
    code points are white space for [strip]. *)

Module article_parser.

Definition code (c : ascii) : N := N.of_nat (nat_of_ascii c).
Definition lit (s : string) : list N := map code (chars s).
Definition LF : N := 10%N.

(** [s.find(sub)]: where [sub] occurs first in [s]. *)
Fixpoint find (sub s : list N) : option nat :=
  if decide (sub `prefix_of` s) then Some 0
  else match s with
       | [] => None
       | _ :: s' => S <$> find sub s'
       end.

(** [sub in s]. *)
Definition contains (sub s : list N) : bool := bool_decide (is_Some (find sub s)).

(** [s.split(sep, 1)] for a separator that is not empty. *)
Definition split_1 (sep s : list N) : list (list N) :=
  match find sep s with
  | Some i => [take i s; drop (i + length sep) s]
  | None => [s]
  end.

Definition marker : list N := LF :: lit "[OPTIONS]" ++ [LF].
Definition marker2 : list N := LF :: LF :: lit "[OPTIONS]" ++ [LF].
Definition OPTIONS_TAG : list N := lit "[OPTIONS]" ++ [LF].

Section split.
Variable isspace : N → bool.

Fixpoint lstrip (s : list N) : list N :=
  match s with
  | c :: s' => if isspace c then lstrip s' else s
  | [] => []
  end.

Definition rstrip (s : list N) : list N := rev (lstrip (rev s)).

Definition strip (s : list N) : list N := rstrip (lstrip s).

(** White space only. *)
Definition blank (w : list N) : Prop := Forall (λ c, isspace c = true) w.

(** [passage] is [None] or a string. *)
Definition split_passage_and_options (passage : option (list N))
    : result (list N * list N) :=
  match passage with
  | None => Ok ([], [])
  | Some passage =>
      let s := strip passage in
      if contains marker s then
        match split_1 marker s with
        | [article; opts] => Ok (rstrip article, OPTIONS_TAG ++ strip opts)
        | _ => Raise UnpackError
        end
      else if contains marker2 s then
        match split_1 marker2 s with
        | [article; opts] => Ok (rstrip article, OPTIONS_TAG ++ strip opts)
        | _ => Raise UnpackError
        end
      else Ok (s, [])
  end.
End split.

(** [str.isspace] of one code point: the white space of Unicode. *)
Definition unicode_isspace (c : N) : bool :=
  bool_decide (c ∈ [9; 10; 11; 12; 13; 28; 29; 30; 31; 32; 133; 160; 5760;
                    8192; 8193; 8194; 8195; 8196; 8197; 8198; 8199; 8200; 8201;
                    8202; 8232; 8233; 8239; 8287; 12288]%N).

End article_parser.

(** A server with the base image and one encoded image. *)
Definition example_files (path : string) : option (list Z) :=
  if decide (path = "base.png") then Some [1%Z]
  else if decide (path = "enc/a-1.png") then Some [2%Z]
  else None.

Definition example_b64 (content : list Z) : string :=
  match content with
  | [1%Z] => "AQ=="
  | [2%Z] => "Ag=="
  | _ => EmptyString
  end.

Definition example_mapping : list string :=
  [header_line; nl (cat_tab ["a-1.txt"; "enc/a-1.png"; "S0VZ"; "43"])].

(** A disk with one mapping file; the error is the name of the exception. *)
Definition example_open (path : string) : string + list string :=
  if decide (path = "key_mapping.txt") then inr example_mapping
  else inl "FileNotFoundError".

(** ** Specification-level views used by the proofs *)

(** The eight bits of one byte, most significant first. *)
Definition bits_of_byte (b : Z) : list Z :=
  map (λ i, Z.land (Z.shiftr b i) 1) encoder.range_7_down.


(** The channel of a pixel: 0 is red, 1 green, 2 blue. *)
Definition channel (p : pixel) (c : nat) : Z :=
  let '(r, g, b) := p in
  match c with
  | 0 => r
  | 1 => g
  | _ => b
  end.

(** What embedding does to the channel that is [i]-th in traversal order. *)
Definition emb_ch (bits : list Z) (i : nat) (v : Z) : Z :=
  match bits !! i with
  | Some bit => Z.lor (Z.land v 254) bit
  | None => v
  end.

Definition emb_px (bits : list Z) (k : nat) (p : pixel) : pixel :=
  let '(r, g, b) := p in
  (emb_ch bits (3 * k) r, emb_ch bits (3 * k + 1) g, emb_ch bits (3 * k + 2) b).

(** The buffer once the first [n] pixels have been visited. *)
Definition embed_upto (bits : list Z) (n : nat) (px : list pixel) : list pixel :=
  imap (λ k p, if k <? n then emb_px bits k p else p) px.

(** The invariant of the embedding loops: [k] pixels have been visited,
    [st] is the bit counter and the buffer, [px0] the buffer at the start. *)
Definition embed_visited (bits : list Z) (px0 : list pixel)
    (k : nat) (st : nat * list pixel) : Prop :=
  st.1 = min (3 * k) (length bits) ∧ st.2 = embed_upto bits k px0.

(** The least significant bits of a flat RGBA array, three per pixel. *)
Definition rgba_lsb (data : list Z) (i : nat) : Z :=
  js_and (js_num (data !! (i / 3 * 4 + i mod 3))) 1.

(** The carrier with every channel that has a bit rewritten. *)
Definition embedded (img : image) (bits : list Z) : image :=
  Image (img_width img) (img_height img) (imap (emb_px bits) (img_pixels img)).

(** The invariant of the extraction loops, for a request of [n] bits: [k]
    pixels have been visited, [st] is the array [bits] and the counter. *)
Definition extract_visited (data : list Z) (n : nat)
    (k : nat) (st : list Z * nat) : Prop :=
  st.2 = min (3 * k) n ∧ st.1 = map (rgba_lsb data) (seq 0 st.2).

(** Text that stays one field of one line: no tab and no line break. *)
Definition one_field (s : string) : Prop :=
  Forall (λ c, c ≠ tab ∧ c ≠ newline ∧ c ≠ "013"%char) (chars s).

(** A file name that [strip] leaves alone at its start: it begins with an
    ASCII character that is not white space. *)
Definition starts_plain (s : string) : Prop :=
  ∃ c rest, chars s = c :: rest ∧ py_isspace c = false ∧ nat_of_ascii c < 128.

Definition written_ok (r : encoder_main.written) : Prop :=
  one_field (encoder_main.txt_file r) ∧ starts_plain (encoder_main.txt_file r)
  ∧ one_field (encoder_main.output_png r)
  ∧ one_field (encoder_main.aes_key_b64 r).

(** The entry that the server keeps for a record of the batch. *)
Definition entry_of (r : encoder_main.written) : string * app.entry :=
  let key := (posix_splitext (encoder_main.txt_file r)).1 in
  (key, app.Entry key (encoder_main.output_png r) (encoder_main.aes_key_b64 r)
          (Z.of_nat (encoder_main.payload_len r))).

(** The constructor [AESGCM] of the cryptography package, which is not part
    of the repository: it takes a key of 128, 192 or 256 bits and raises
    [ValueError] for a key of any other length. *)
Definition library_key_length (key : list Z) : Prop :=
  length key = 16 ∨ length key = 24 ∨ length key = 32.

Definition cryptography_AESGCM `{PyCrypto} : Prop :=
  ∀ key,
    (library_key_length key → ∃ c, AESGCM key = Ok c)
    ∧ (¬ library_key_length key → AESGCM key = Raise InvalidKey).

(** How [read_article_mapping] sees one line of the file. *)
Section registry_lines.
Context `{PyStr}.

Definition fields (line : string) : list string :=
  str_split_tab (str_strip line).

(** Blank once stripped, or not four fields. *)
Definition skipped_line (line : string) : Prop :=
  str_strip line = EmptyString ∨ length (fields line) ≠ 4.

(** Four fields, the last of which [int] reads: the record under [key]. *)
Definition record_line (line : string) (key : string) (e : app.entry) : Prop :=
  str_strip line ≠ EmptyString
  ∧ ∃ a p k n v,
      fields line = [a; p; k; n] ∧ py_int n = Some v
      ∧ key = (splitext a).1 ∧ e = app.Entry key p k v.

(** Four fields, the last of which [int] rejects. *)
Definition bad_length_line (line : string) : Prop :=
  str_strip line ≠ EmptyString
  ∧ ∃ a p k n, fields line = [a; p; k; n] ∧ py_int n = None.
End registry_lines.

(** * Proofs *)

Section list_chunks.
Context {A B : Type}.

(** Reading a concatenation of fixed-width chunks. *)
Lemma lookup_flat_map_chunks (f : A → list B) (c : nat) (l : list A) (i j : nat) :
  (∀ x, length (f x) = c) → j < c →
  flat_map f l !! (c * i + j) = l !! i ≫= λ x, f x !! j.
Proof.
  intros Hlen Hj. revert i. induction l as [|a l IH]; intros i; simpl.
  - by destruct i.
  - destruct i as [|i].
    + rewrite Nat.mul_0_r. simpl. rewrite lookup_app_l; [done | rewrite Hlen; lia].
    + rewrite lookup_app_r; rewrite Hlen; [|lia].
      replace (c * S i + j - c) with (c * i + j) by lia. apply IH.
Qed.

Lemma length_flat_map_chunks (f : A → list B) (c : nat) (l : list A) :
  (∀ x, length (f x) = c) → length (flat_map f l) = c * length l.
Proof.
  intros Hlen. induction l as [|a l IH]; simpl; [lia|].
  rewrite length_app, Hlen, IH. lia.
Qed.
End list_chunks.

(** ** Bit planner: the writer's bits and the reader's bytes *)

Section bit_planner.
Import encoder app.

Lemma length_bits_of_byte b : length (bits_of_byte b) = 8.
Proof. reflexivity. Qed.

Lemma append_byte_bits_app bits b :
  append_byte_bits bits b = bits ++ bits_of_byte b.
Proof.
  unfold append_byte_bits, bits_of_byte, range_7_down. simpl.
  by rewrite <- !app_assoc.
Qed.

Lemma bytes_to_lsb_bits_flat_map data :
  bytes_to_lsb_bits data = flat_map bits_of_byte data.
Proof.
  unfold bytes_to_lsb_bits.
  enough (∀ acc, fold_left append_byte_bits data acc
                 = acc ++ flat_map bits_of_byte data) as H by apply H.
  induction data as [|b data IH]; intros acc; simpl.
  - by rewrite app_nil_r.
  - by rewrite IH, append_byte_bits_app, <- app_assoc.
Qed.

Lemma length_bytes_to_lsb_bits data :
  length (bytes_to_lsb_bits data) = 8 * length data.
Proof.
  rewrite bytes_to_lsb_bits_flat_map.
  apply length_flat_map_chunks, length_bits_of_byte.
Qed.

Lemma land_shiftr_1 (x i : Z) :
  (0 ≤ i)%Z → Z.land (Z.shiftr x i) 1 = Z.b2z (Z.testbit x i).
Proof.
  intros Hi. change 1%Z with (Z.ones 1). rewrite Z.land_ones by lia.
  change (2 ^ 1)%Z with 2%Z. rewrite <- Z.bit0_mod.
  by rewrite Z.shiftr_spec by lia.
Qed.

Lemma bits_of_byte_lookup x j :
  j < 8 → bits_of_byte x !! j = Some (Z.b2z (Z.testbit x (7 - Z.of_nat j))).
Proof.
  intros Hj. do 8 (destruct j as [|j]; [simpl; by rewrite land_shiftr_1 by lia|]).
  lia.
Qed.

Lemma bits_of_byte_bit x : Forall is_bit (bits_of_byte x).
Proof.
  apply Forall_lookup. intros j v Hj.
  assert (j < 8) by (apply lookup_lt_Some in Hj; by rewrite length_bits_of_byte in Hj).
  rewrite bits_of_byte_lookup in Hj by done. injection Hj as <-.
  unfold is_bit. destruct (Z.testbit _ _); simpl; auto.
Qed.

(** Assigning [f i] to slot [i] for [i] in [a .. a+m-1]. *)
Lemma fold_insert_seq_lookup (f : nat → Z) m : ∀ a (l : list Z) i,
  fold_left (λ d i, <[i := f i]> d) (seq a m) l !! i
  = if decide (a ≤ i < a + m ∧ i < length l) then Some (f i) else l !! i.
Proof.
  induction m as [|m IH]; intros a l i; simpl.
  - case_decide; [lia | done].
  - rewrite IH, length_insert. destruct (decide (i = a)) as [->|Hne].
    + repeat case_decide; try lia; try done.
      * by rewrite list_lookup_insert_eq by lia.
      * rewrite list_insert_ge by lia. done.
    + rewrite list_lookup_insert_ne by done.
      repeat case_decide; try lia; done.
Qed.

Lemma lsbBitsToBytes_map bits :
  lsbBitsToBytes bits
  = map (λ i, ToUint8 (byte_loop bits i (seq 0 8) 0)) (seq 0 (length bits / 8)).
Proof.
  unfold lsbBitsToBytes. cbv zeta. generalize (length bits / 8). intros n.
  apply list_eq. intros i.
  rewrite fold_insert_seq_lookup, length_replicate.
  change (map ?f ?l) with (f <$> l). rewrite list_lookup_fmap.
  case_decide as Hi.
  - rewrite lookup_seq_lt by lia. done.
  - rewrite lookup_seq_ge by lia. simpl.
    apply lookup_replicate_None. lia.
Qed.
End bit_planner.

Section bit_planner_roundtrip.
Import encoder app.

Lemma byte_loop_chunk bits chunk i js acc :
  i + 8 ≤ length bits → length chunk = 8 →
  (∀ j, j < 8 → bits !! (i * 8 + j) = chunk !! j) →
  Forall (λ j, j < 8) js →
  byte_loop bits i js acc = byte_loop chunk 0 js acc.
Proof.
  intros Hlen Hc Hrd Hjs. revert acc.
  induction Hjs as [|j js Hj _ IH]; intros acc; simpl; [done|].
  rewrite Hc. destruct (Nat.leb_spec (length bits) (i + j)); [lia|].
  destruct (Nat.leb_spec 8 j); [lia|].
  rewrite Hrd by done. apply IH.
Qed.

Lemma pack_unpack_all :
  forallb (λ n, Z.eqb (ToUint8 (byte_loop (bits_of_byte (Z.of_nat n)) 0 (seq 0 8) 0))
                      (Z.of_nat n)) (seq 0 256) = true.
Proof. vm_compute. reflexivity. Qed.

Lemma pack_unpack x :
  is_byte x → ToUint8 (byte_loop (bits_of_byte x) 0 (seq 0 8) 0) = x.
Proof.
  intros Hx. pose proof pack_unpack_all as H.
  rewrite List.forallb_forall in H.
  specialize (H (Z.to_nat x)). rewrite Z2Nat.id in H by (unfold is_byte in Hx; lia).
  apply Z.eqb_eq, H, in_seq. unfold is_byte in Hx. lia.
Qed.

Lemma seq_lt_8 : Forall (λ j, j < 8) (seq 0 8).
Proof. repeat constructor. Qed.

Lemma lsbBitsToBytes_bytes_to_lsb_bits (b : list Z) :
  Forall is_byte b → lsbBitsToBytes (bytes_to_lsb_bits b) = b.
Proof.
  intros Hb. rewrite lsbBitsToBytes_map, length_bytes_to_lsb_bits.
  rewrite Nat.mul_comm, Nat.div_mul by done.
  apply list_eq. intros i. change (map ?f ?l) with (f <$> l).
  rewrite list_lookup_fmap.
  destruct (b !! i) as [x|] eqn:Hx.
  - pose proof (lookup_lt_Some _ _ _ Hx) as Hi.
    rewrite lookup_seq_lt by done.
    change (Some (ToUint8 (byte_loop (bytes_to_lsb_bits b) i (seq 0 8) 0)) = Some x).
    f_equal.
    rewrite (byte_loop_chunk _ (bits_of_byte x)).
    + apply pack_unpack. by eapply Forall_lookup_1.
    + rewrite length_bytes_to_lsb_bits. lia.
    + done.
    + intros j Hj. rewrite bytes_to_lsb_bits_flat_map, (Nat.mul_comm i 8).
      rewrite (lookup_flat_map_chunks _ 8) by done. by rewrite Hx.
    + apply seq_lt_8.
  - apply lookup_ge_None in Hx. by rewrite lookup_seq_ge by done.
Qed.

(** C1.  Bit planner agreement between the writer ([bytes_to_lsb_bits])
    and the reader ([lsbBitsToBytes]): for every byte sequence [b], the
    writer emits eight bits per byte, the bytes in input order and each
    byte most significant bit first; the reader turns those bits back
    into [b]; and planning the reader's bytes again gives the same
    bits. *)
Theorem bit_planner_agreement (b : list Z) :
  Forall is_byte b →
  length (bytes_to_lsb_bits b) = 8 * length b
  ∧ (∀ k j x, b !! k = Some x → j < 8 →
       bytes_to_lsb_bits b !! (8 * k + j)
       = Some (Z.b2z (Z.testbit x (7 - Z.of_nat j))))
  ∧ lsbBitsToBytes (bytes_to_lsb_bits b) = b
  ∧ bytes_to_lsb_bits (lsbBitsToBytes (bytes_to_lsb_bits b)) = bytes_to_lsb_bits b.
Proof.
  intros Hb. split; [apply length_bytes_to_lsb_bits|]. split.
  - intros k j x Hk Hj. rewrite bytes_to_lsb_bits_flat_map.
    rewrite (lookup_flat_map_chunks _ 8) by done. rewrite Hk. simpl.
    by apply bits_of_byte_lookup.
  - by rewrite lsbBitsToBytes_bytes_to_lsb_bits.
Qed.

Lemma bit_planner_agreement_witness :
  Forall is_byte [72; 105; 0; 255]%Z
  ∧ lsbBitsToBytes (bytes_to_lsb_bits [72; 105; 0; 255]%Z) = [72; 105; 0; 255]%Z.
Proof.
  assert (Hb : Forall is_byte [72; 105; 0; 255]%Z)
    by (repeat constructor; unfold is_byte; lia).
  split; [exact Hb|].
  exact (proj1 (proj2 (proj2 (bit_planner_agreement _ Hb)))).
Defined.
End bit_planner_roundtrip.

(** ** The embedding loops *)

Section embed_proofs.
Import encoder.
Variables (w h : nat) (bits : list Z) (px0 : list pixel).
Hypothesis Hwf : length px0 = w * h.

Local Abbreviation L := (length bits).

Lemma length_embed_upto n : length (embed_upto bits n px0) = length px0.
Proof. apply length_imap. Qed.

Lemma lookup_embed_upto n k :
  embed_upto bits n px0 !! k
  = (λ p, if k <? n then emb_px bits k p else p) <$> px0 !! k.
Proof. apply list_lookup_imap. Qed.

Lemma emb_ch_beyond i v : L ≤ i → emb_ch bits i v = v.
Proof. intros Hi. unfold emb_ch. by rewrite lookup_ge_None_2. Qed.

Lemma emb_px_beyond k p : L ≤ 3 * k → emb_px bits k p = p.
Proof.
  intros Hk. destruct p as [[r g] b]. unfold emb_px.
  by rewrite !emb_ch_beyond by lia.
Qed.

Lemma embed_upto_stable n n' :
  L ≤ 3 * n → n ≤ n' → embed_upto bits n px0 = embed_upto bits n' px0.
Proof.
  intros HL Hn. apply list_eq. intros k. rewrite !lookup_embed_upto.
  destruct (px0 !! k) as [p|]; [simpl|done]. f_equal.
  destruct (Nat.ltb_spec k n), (Nat.ltb_spec k n'); try done; try lia.
  by rewrite emb_px_beyond by lia.
Qed.

Lemma embed_upto_0 : embed_upto bits 0 px0 = px0.
Proof.
  apply list_eq. intros k. rewrite lookup_embed_upto.
  by destruct (px0 !! k).
Qed.

Lemma embed_upto_step k p :
  px0 !! k = Some p →
  <[k := emb_px bits k p]> (embed_upto bits k px0) = embed_upto bits (S k) px0.
Proof.
  intros Hp. apply list_eq. intros j.
  destruct (decide (j = k)) as [->|Hne].
  - rewrite list_lookup_insert_eq
      by (rewrite length_embed_upto; by eapply lookup_lt_Some).
    rewrite lookup_embed_upto, Hp. simpl.
    by destruct (Nat.ltb_spec k (S k)); [|lia].
  - rewrite list_lookup_insert_ne by done. rewrite !lookup_embed_upto.
    destruct (px0 !! j); [simpl|done]. f_equal.
    destruct (Nat.ltb_spec j k), (Nat.ltb_spec j (S k)); try done; lia.
Qed.

Lemma getpixel_ok x y buf p :
  x < w → y < h → buf !! (y * w + x) = Some p →
  getpixel w h x y buf = (inr p, buf).
Proof.
  intros Hx Hy Hp. unfold getpixel, py_index.
  destruct (Nat.ltb_spec x w), (Nat.ltb_spec y h); try lia. simpl.
  by rewrite Hp.
Qed.

Lemma putpixel_ok x y buf p :
  x < w → y < h → y * w + x < length buf →
  putpixel w h x y p buf = (inr (), <[y * w + x := p]> buf).
Proof.
  intros Hx Hy Hk. unfold putpixel.
  destruct (Nat.ltb_spec x w), (Nat.ltb_spec y h),
    (Nat.ltb_spec (y * w + x) (length buf)); try lia. done.
Qed.

Lemma lift_index_ok i v (buf : list pixel) :
  bits !! i = Some v → lift (py_index bits i) buf = (inr v, buf).
Proof. intros Hv. unfold lift, py_index. by rewrite Hv. Qed.

Local Abbreviation visited := (embed_visited bits px0).

Lemma visited_skip k k' st :
  visited k st → L ≤ 3 * k → k ≤ k' → visited k' st.
Proof.
  intros [Hi Hb] HL Hk. split.
  - rewrite Hi. lia.
  - rewrite Hb. by apply embed_upto_stable.
Qed.

Lemma embed_pixel_step x y i buf :
  x < w → y < h → visited (y * w + x) (i, buf) →
  ∃ c i' buf',
    embed_pixel w h bits L x y i buf = (inr (c, i'), buf')
    ∧ visited (S (y * w + x)) (i', buf')
    ∧ (c = Break → L ≤ i').
Proof.
  intros Hx Hy [Hi Hb]. cbn [fst snd] in Hi, Hb. set (k := y * w + x) in *.
  assert (k < length px0) as Hk by (subst k; rewrite Hwf; nia).
  unfold embed_pixel.
  destruct (Nat.leb_spec L i) as [HLi|HLi].
  { exists Break, i, buf. split; [done|]. split; [|done].
    apply (visited_skip k); [done|lia|lia]. }
  assert (i = 3 * k) as -> by lia.
  destruct (lookup_lt_is_Some_2 px0 k Hk) as [[[r g] b] Hp].
  assert (buf !! k = Some (r, g, b)) as Hbk.
  { rewrite Hb, lookup_embed_upto, Hp. simpl.
    by destruct (Nat.ltb_spec k k); [lia|]. }
  assert (k < length buf) as Hkb by (by eapply lookup_lt_Some).
  destruct (lookup_lt_is_Some_2 bits (3 * k) HLi) as [v0 Hv0].
  unfold mbind, PixM_bind, mret, PixM_ret.
  rewrite (getpixel_ok x y buf (r, g, b)) by done. cbv beta iota.
  rewrite (lift_index_ok _ v0) by done. cbv beta iota.
  destruct (Nat.leb_spec L (3 * k + 1)) as [HL1|HL1].
  { rewrite putpixel_ok by done. cbv beta iota. fold k.
    exists Break, (3 * k + 1), (<[k := (Z.lor (Z.land r 254) v0, g, b)]> buf).
    split; [done|]. split; [|done]. split; cbn [fst snd]; [lia|].
    rewrite Hb, <- (embed_upto_step k (r, g, b)) by done. f_equal.
    unfold emb_px, emb_ch. rewrite Hv0.
    by rewrite !lookup_ge_None_2 by lia. }
  destruct (lookup_lt_is_Some_2 bits (3 * k + 1) HL1) as [v1 Hv1].
  rewrite (lift_index_ok _ v1) by done. cbv beta iota.
  destruct (Nat.leb_spec L (3 * k + 1 + 1)) as [HL2|HL2].
  { rewrite putpixel_ok by done. cbv beta iota. fold k.
    eexists Break, _, _. split; [done|]. split; [|done]. split; cbn [fst snd]; [lia|].
    rewrite Hb, <- (embed_upto_step k (r, g, b)) by done. f_equal.
    unfold emb_px, emb_ch. rewrite Hv0, Hv1.
    by rewrite !lookup_ge_None_2 by lia. }
  assert (3 * k + 2 < L) as HL2' by lia.
  destruct (lookup_lt_is_Some_2 bits (3 * k + 2) HL2') as [v2 Hv2].
  replace (3 * k + 1 + 1) with (3 * k + 2) by lia.
  rewrite (lift_index_ok _ v2) by done. cbv beta iota.
  rewrite putpixel_ok by done. cbv beta iota. fold k.
  eexists Continue, _, _. split; [done|]. split; [|done]. split; cbn [fst snd]; [lia|].
  rewrite Hb, <- (embed_upto_step k (r, g, b)) by done. f_equal.
  unfold emb_px, emb_ch. by rewrite Hv0, Hv1, Hv2.
Qed.

Lemma embed_row_spec n : ∀ x0 y i buf,
  x0 + n ≤ w → y < h → visited (y * w + x0) (i, buf) →
  ∃ i' buf',
    embed_row w h bits L (seq x0 n) y i buf = (inr i', buf')
    ∧ visited (y * w + x0 + n) (i', buf').
Proof.
  induction n as [|n IH]; intros x0 y i buf Hx Hy Hv.
  - exists i, buf. split; [done|]. by rewrite Nat.add_0_r.
  - destruct (embed_pixel_step x0 y i buf) as (c & i1 & buf1 & Hstep & Hv1 & Hc);
      [lia|done|done|].
    cbn [seq embed_row]. unfold mbind at 1, PixM_bind at 1.
    rewrite Hstep. cbv beta iota. destruct c.
    + replace (S (y * w + x0)) with (y * w + S x0) in Hv1 by lia.
      destruct (IH (S x0) y i1 buf1) as (i' & buf' & Hrow & Hv'); [lia|done|done|].
      exists i', buf'. split; [done|].
      by replace (y * w + x0 + S n) with (y * w + S x0 + n) by lia.
    + exists i1, buf1. split; [done|].
      specialize (Hc eq_refl). pose proof Hv1 as [Hi1 _]. cbn [fst] in Hi1.
      apply (visited_skip (S (y * w + x0))); [done|lia|lia].
Qed.

Lemma embed_rows_spec m : ∀ y0 i buf,
  y0 + m ≤ h → visited (y0 * w) (i, buf) →
  ∃ i' buf',
    embed_rows w h bits L (seq y0 m) i buf = (inr i', buf')
    ∧ visited ((y0 + m) * w) (i', buf').
Proof.
  induction m as [|m IH]; intros y0 i buf Hy Hv.
  - exists i, buf. split; [done|]. by rewrite Nat.add_0_r.
  - destruct (embed_row_spec w 0 y0 i buf) as (i1 & buf1 & Hrow & Hv1);
      [lia|lia|by rewrite Nat.add_0_r|].
    replace (y0 * w + 0 + w) with (S y0 * w) in Hv1 by lia.
    cbn [seq embed_rows]. unfold mbind at 1, PixM_bind at 1.
    rewrite Hrow. cbv beta iota.
    destruct (Nat.leb_spec L i1) as [HL|HL].
    + exists i1, buf1. split; [done|].
      pose proof Hv1 as [Hi1 _]. cbn [fst] in Hi1.
      apply (visited_skip (S y0 * w)); [done|lia|nia].
    + destruct (IH (S y0) i1 buf1) as (i' & buf' & Hrows & Hv'); [lia|done|].
      exists i', buf'. split; [done|].
      by replace ((y0 + S m) * w) with ((S y0 + m) * w) by lia.
Qed.

Lemma embed_rows_all :
  ∃ i', embed_rows w h bits L (seq 0 h) 0 px0
        = (inr i', embed_upto bits (w * h) px0).
Proof.
  destruct (embed_rows_spec h 0 0 px0) as (i' & buf' & Hrows & Hv).
  - lia.
  - change (0 * w) with 0. split; cbn [fst snd]; [lia|]. by rewrite embed_upto_0.
  - exists i'. rewrite Hrows. destruct Hv as [_ Hb]. cbn [snd] in Hb.
    by rewrite Hb, Nat.mul_comm.
Qed.
End embed_proofs.

Section embed_bits_proofs.
Import encoder.

Lemma embed_upto_all bits n px :
  length px ≤ n → embed_upto bits n px = imap (emb_px bits) px.
Proof.
  intros Hn. apply list_eq. intros k. unfold embed_upto.
  rewrite !list_lookup_imap. destruct (px !! k) as [p|] eqn:Hp; [simpl|done].
  apply lookup_lt_Some in Hp. by destruct (Nat.ltb_spec k n); [|lia].
Qed.

Lemma embed_bits_ok img bits :
  wf_image img → length bits ≤ img_width img * img_height img * 3 →
  embed_bits img bits = (Ok (embedded img bits), embedded img bits).
Proof.
  intros Hwf Hcap. unfold embed_bits. cbv zeta.
  destruct (Nat.ltb_spec (img_width img * img_height img * 3) (length bits)); [lia|].
  destruct (embed_rows_all _ _ bits _ Hwf) as [i' ->].
  unfold embedded. rewrite embed_upto_all; [done|]. by rewrite Hwf.
Qed.

Lemma embed_bits_too_large img bits :
  img_width img * img_height img * 3 < length bits →
  embed_bits img bits
  = (Raise (DataTooLarge (length bits) (img_width img * img_height img * 3)), img).
Proof.
  intros Hcap. unfold embed_bits. cbv zeta.
  by destruct (Nat.ltb_spec (img_width img * img_height img * 3) (length bits)); [|lia].
Qed.

Lemma lookup_embedded img bits k :
  img_pixels (embedded img bits) !! k = emb_px bits k <$> img_pixels img !! k.
Proof. apply list_lookup_imap. Qed.

Lemma channel_emb_px bits k p c :
  c < 3 → channel (emb_px bits k p) c = emb_ch bits (3 * k + c) (channel p c).
Proof.
  intros Hc. destruct p as [[r g] b]. unfold emb_px, channel.
  destruct c as [|[|[|c]]]; [| | |lia]; rewrite ?Nat.add_0_r; done.
Qed.
End embed_bits_proofs.

(** ** The extraction loops *)

Section extract_proofs.
Import app.
Variables (data : list Z) (w h n : nat).

Local Abbreviation visited := (extract_visited data n).

Lemma extract_visited_skip k k' st :
  visited k st → n ≤ 3 * k → k ≤ k' → visited k' st.
Proof.
  intros [Hi Hb] Hn Hk. split; [|done]. rewrite Hi. lia.
Qed.

Lemma rgba_lsb_channel k c :
  c < 3 → rgba_lsb data (3 * k + c) = js_and (js_num (data !! (k * 4 + c))) 1.
Proof.
  intros Hc. unfold rgba_lsb.
  replace ((3 * k + c) / 3) with k by (apply (Nat.div_unique _ 3 k c); lia).
  replace ((3 * k + c) mod 3) with c by (apply (Nat.mod_unique _ 3 k c); lia).
  done.
Qed.

Lemma map_seq_snoc (f : nat → Z) m :
  map f (seq 0 m) ++ [f m] = map f (seq 0 (m + 1)).
Proof. by rewrite Nat.add_1_r, seq_S, map_app. Qed.

Lemma extract_pixel_step x y st :
  st.2 < n → visited (y * w + x) st →
  ∃ c st',
    extract_pixel data w n x y st = (c, st')
    ∧ visited (S (y * w + x)) st'
    ∧ (c = Break → n ≤ st'.2).
Proof.
  destruct st as [bits i]. cbn [fst snd]. intros Hlt [Hi Hb].
  cbn [fst snd] in Hi, Hb. set (k := y * w + x) in *.
  assert (i = 3 * k) as -> by lia.
  unfold extract_pixel. fold k. rewrite Hb.
  assert (js_and (js_num (data !! (k * 4))) 1 = rgba_lsb data (3 * k)) as ->.
  { rewrite <- (Nat.add_0_r (3 * k)), rgba_lsb_channel by lia.
    by rewrite Nat.add_0_r. }
  assert (js_and (js_num (data !! (k * 4 + 1))) 1 = rgba_lsb data (3 * k + 1)) as ->
    by (by rewrite rgba_lsb_channel by lia).
  assert (js_and (js_num (data !! (k * 4 + 2))) 1 = rgba_lsb data (3 * k + 1 + 1)) as ->.
  { replace (3 * k + 1 + 1) with (3 * k + 2) by lia.
    by rewrite rgba_lsb_channel by lia. }
  rewrite !map_seq_snoc.
  destruct (Nat.leb_spec n (3 * k + 1));
    [|destruct (Nat.leb_spec n (3 * k + 1 + 1));
      [|destruct (Nat.leb_spec n (3 * k + 1 + 1 + 1))]];
    (eexists _, _; split; [done|]; split; [|cbn [fst snd]; intros; first [lia | done]];
     split; cbn [fst snd]; [lia|done]).
Qed.

Lemma extract_row_spec m : ∀ x0 y st,
  visited (y * w + x0) st →
  visited (y * w + x0 + m) (extract_row data w n (seq x0 m) y st).
Proof.
  induction m as [|m IH]; intros x0 y st Hv.
  - by rewrite Nat.add_0_r.
  - cbn [seq extract_row]. destruct (Nat.ltb_spec st.2 n) as [Hlt|Hge].
    + destruct (extract_pixel_step x0 y st Hlt Hv) as (c & st' & -> & Hv' & Hc).
      destruct c.
      * replace (y * w + x0 + S m) with (y * w + S x0 + m) by lia.
        apply IH. by replace (y * w + S x0) with (S (y * w + x0)) by lia.
      * specialize (Hc eq_refl). pose proof Hv' as [Hi _].
        apply (extract_visited_skip (S (y * w + x0))); [done|lia|lia].
    + pose proof Hv as [Hi _].
      apply (extract_visited_skip (y * w + x0)); [done|lia|lia].
Qed.

Lemma extract_rows_spec m : ∀ y0 st,
  visited (y0 * w) st →
  visited ((y0 + m) * w) (extract_rows data w n (seq y0 m) st).
Proof.
  induction m as [|m IH]; intros y0 st Hv.
  - by rewrite Nat.add_0_r.
  - cbn [seq extract_rows]. destruct (Nat.ltb_spec st.2 n) as [Hlt|Hge].
    + replace ((y0 + S m) * w) with ((S y0 + m) * w) by lia. apply IH.
      replace (S y0 * w) with (y0 * w + 0 + w) by lia.
      apply extract_row_spec. by rewrite Nat.add_0_r.
    + pose proof Hv as [Hi _].
      apply (extract_visited_skip (y0 * w)); [done|lia|nia].
Qed.

Lemma extract_rows_all :
  n ≤ w * h * 3 →
  (extract_rows data w n (seq 0 h) ([], 0)).1 = map (rgba_lsb data) (seq 0 n).
Proof.
  intros Hcap.
  destruct (extract_rows_spec h 0 ([], 0)) as [Hi ->].
  - split; cbn [fst snd]; [lia|done].
  - rewrite Hi. do 2 f_equal. lia.
Qed.
End extract_proofs.

Section extract_bits_proofs.
Import app.

Lemma extract_bits_ok d n :
  n ≤ id_width d * id_height d * 3 →
  extract_bits d n = Ok (map (rgba_lsb (id_data d)) (seq 0 n)).
Proof.
  intros Hcap. unfold extract_bits. cbv zeta.
  destruct (Nat.ltb_spec (id_width d * id_height d * 3) n); [lia|].
  by rewrite extract_rows_all.
Qed.

Lemma extract_bits_too_long d n :
  id_width d * id_height d * 3 < n →
  extract_bits d n = Raise (DataTooLong n (id_width d * id_height d * 3)).
Proof.
  intros Hcap. unfold extract_bits. cbv zeta.
  by destruct (Nat.ltb_spec (id_width d * id_height d * 3) n); [|lia].
Qed.

Lemma land_ToInt32_1 z : Z.land (ToInt32 z) 1 = Z.land z 1.
Proof.
  change 1%Z with (Z.ones 1). rewrite !Z.land_ones by lia.
  unfold ToInt32. change (2 ^ 1)%Z with 2%Z.
  change (2 ^ 31)%Z with 2147483648%Z. change (2 ^ 32)%Z with 4294967296%Z.
  Z.div_mod_to_equations. lia.
Qed.

Lemma js_and_1 z : js_and z 1 = Z.land z 1.
Proof. unfold js_and. change (ToInt32 1) with 1%Z. apply land_ToInt32_1. Qed.

Lemma lsb_emb_ch bits i v bit :
  bits !! i = Some bit → is_bit bit → Z.land (emb_ch bits i v) 1 = bit.
Proof.
  intros Hb Hbit. unfold emb_ch. rewrite Hb.
  rewrite Z.land_lor_distr_l, <- Z.land_assoc. change (Z.land 254 1) with 0%Z.
  rewrite Z.land_0_r. destruct Hbit as [-> | ->]; reflexivity.
Qed.

Lemma lookup_getImageData img k c :
  c < 4 →
  id_data (getImageData img) !! (k * 4 + c)
  = img_pixels img !! k ≫= λ p, match c with 3 => Some 255%Z | _ => Some (channel p c) end.
Proof.
  intros Hc. unfold getImageData. cbn [id_data]. rewrite (Nat.mul_comm k 4).
  rewrite (lookup_flat_map_chunks (A:=pixel) _ 4); [|by intros [[??]?]|done].
  destruct (img_pixels img !! k) as [[[r g] b]|]; [simpl|done].
  by destruct c as [|[|[|[|c]]]]; [| | | |lia].
Qed.
End extract_bits_proofs.

(** ** Writer and reader together *)

(** Closed lists of bits or of bytes. *)
Ltac solve_bits :=
  repeat match goal with
    | |- Forall _ [] => constructor
    | |- Forall _ (_ :: _) =>
        constructor; [unfold is_bit, is_byte; first [by left | by right | lia]|]
    end.

Section codec_theorems.
Import encoder app.

Lemma rgba_lsb_embedded img s i bit :
  wf_image img → length s ≤ img_width img * img_height img * 3 →
  s !! i = Some bit → is_bit bit →
  rgba_lsb (id_data (getImageData (embedded img s))) i = bit.
Proof.
  intros Hwf Hcap Hi Hbit. unfold rgba_lsb.
  pose proof (lookup_lt_Some _ _ _ Hi) as Hlt.
  pose proof (Nat.div_mod_eq i 3) as Hdm.
  pose proof (Nat.mod_upper_bound i 3) as Hm.
  set (k := i / 3) in *. set (c := i mod 3) in *.
  assert (k < length (img_pixels img)) as Hk by (rewrite Hwf; lia).
  destruct (lookup_lt_is_Some_2 _ _ Hk) as [p Hp].
  rewrite lookup_getImageData by lia. rewrite lookup_embedded, Hp. simpl.
  assert (Some (channel (emb_px s k p) c)
          = match c with 3 => Some 255%Z | _ => Some (channel (emb_px s k p) c) end)
    as <- by (by destruct c as [|[|[|[|?]]]]; [| | |lia|]).
  simpl. rewrite js_and_1, channel_emb_px by lia.
  apply lsb_emb_ch; [|done]. by replace (3 * k + c) with i by lia.
Qed.

Lemma extract_bits_embedded img s :
  wf_image img → Forall is_bit s →
  length s ≤ img_width img * img_height img * 3 →
  extract_bits (getImageData (embedded img s)) (length s) = Ok s.
Proof.
  intros Hwf Hs Hcap. rewrite extract_bits_ok by done. f_equal.
  apply list_eq. intros i. change (map ?f ?l) with (f <$> l).
  rewrite list_lookup_fmap.
  destruct (s !! i) as [bit|] eqn:Hi.
  - rewrite lookup_seq_lt by (by eapply lookup_lt_Some). simpl. f_equal.
    apply rgba_lsb_embedded; try done. by eapply Forall_lookup_1.
  - apply lookup_ge_None in Hi. by rewrite lookup_seq_ge by done.
Qed.

Lemma bytes_to_lsb_bits_bit data : Forall is_bit (bytes_to_lsb_bits data).
Proof.
  rewrite bytes_to_lsb_bits_flat_map.
  induction data as [|b data IH]; [constructor|].
  cbn [flat_map]. apply Forall_app. split; [apply bits_of_byte_bit|done].
Qed.

(** The same round trip on bytes, as the two entry points see it. *)
Lemma embed_extract_bytes img data :
  wf_image img → Forall is_byte data →
  8 * length data ≤ img_width img * img_height img * 3 →
  ∃ saved,
    embed_data_in_png img data = (Ok saved, saved)
    ∧ extractDataFromPng (getImageData saved) (length data) = Ok data.
Proof.
  intros Hwf Hdata Hcap. exists (embedded img (bytes_to_lsb_bits data)).
  assert (length (bytes_to_lsb_bits data) ≤ img_width img * img_height img * 3)
    as Hcap' by (by rewrite length_bytes_to_lsb_bits).
  split; [by apply embed_bits_ok|].
  unfold extractDataFromPng.
  replace (length data * 8) with (length (bytes_to_lsb_bits data))
    by (rewrite length_bytes_to_lsb_bits; lia).
  rewrite extract_bits_embedded; [|done|apply bytes_to_lsb_bits_bit|done].
  cbn [mbind result_bind Ok mret result_ret].
  by rewrite lsbBitsToBytes_bytes_to_lsb_bits.
Qed.

(** C2.  Embed/extract traversal round trip: for every well-formed
    carrier of width [w] and height [h] and every sequence [s] of bits
    with [length s <= w * h * 3], embedding succeeds and extracting
    [length s] bits from the saved carrier returns exactly [s].  Both
    sides use one addressing: bit number [3 * (y * w + x) + c] is the
    least significant bit of channel [c] (red, green, blue) of the pixel
    in column [x] of row [y]. *)
Theorem embed_extract_roundtrip (img : image) (s : list Z) :
  wf_image img → Forall is_bit s →
  length s ≤ img_width img * img_height img * 3 →
  ∃ img',
    embed_bits img s = (Ok img', img')
    ∧ extract_bits (getImageData img') (length s) = Ok s
    ∧ (∀ x y c p' bit,
         x < img_width img → y < img_height img → c < 3 →
         img_pixels img' !! (y * img_width img + x) = Some p' →
         s !! (3 * (y * img_width img + x) + c) = Some bit →
         Z.land (channel p' c) 1 = bit)
    ∧ (∀ (d : ImageData) n, n ≤ id_width d * id_height d * 3 →
         ∃ bits, extract_bits d n = Ok bits ∧ length bits = n
           ∧ ∀ x y c, c < 3 → 3 * (y * id_width d + x) + c < n →
               bits !! (3 * (y * id_width d + x) + c)
               = Some (js_and (js_num (id_data d !! ((y * id_width d + x) * 4 + c))) 1)).
Proof.
  intros Hwf Hs Hcap. exists (embedded img s).
  split; [by apply embed_bits_ok|]. split; [|split].
  - by apply extract_bits_embedded.
  - intros x y c p' bit Hx Hy Hc Hp' Hbit.
    rewrite lookup_embedded in Hp'.
    destruct (img_pixels img !! _) as [p|]; [|done]. injection Hp' as <-.
    rewrite channel_emb_px by done. apply lsb_emb_ch; [done|].
    by eapply Forall_lookup_1.
  - intros d n Hn. eexists. split; [by apply extract_bits_ok|].
    split; [by rewrite length_map, length_seq|].
    intros x y c Hc Hlt. change (map ?f ?l) with (f <$> l).
    rewrite list_lookup_fmap, lookup_seq_lt by done. simpl. f_equal.
    by apply rgba_lsb_channel.
Qed.

Lemma embed_extract_roundtrip_witness :
  ∃ img',
    embed_bits (Image 2 1 [(10, 11, 12); (13, 14, 15)]%Z) [1; 1; 0; 0]%Z = (Ok img', img')
    ∧ extract_bits (getImageData img') 4 = Ok [1; 1; 0; 0]%Z.
Proof.
  destruct (embed_extract_roundtrip
              (Image 2 1 [(10, 11, 12); (13, 14, 15)]%Z) [1; 1; 0; 0]%Z)
    as (img' & Hemb & Hext & _).
  - reflexivity.
  - solve_bits.
  - simpl. lia.
  - exists img'. split; assumption.
Defined.

Lemma testbit_emb_written v bit n :
  is_bit bit → (1 ≤ n ≤ 7)%Z →
  Z.testbit (Z.lor (Z.land v 254) bit) n = Z.testbit v n.
Proof.
  intros Hbit Hn. rewrite Z.lor_spec, Z.land_spec.
  assert (Z.testbit bit n = false) as ->.
  { destruct Hbit as [-> | ->]; [apply Z.bits_0|].
    destruct n as [|n|n]; try lia. by destruct n. }
  assert (Z.testbit 254 n = true) as ->.
  { assert (n = 1 ∨ n = 2 ∨ n = 3 ∨ n = 4 ∨ n = 5 ∨ n = 6 ∨ n = 7)%Z as Hc by lia.
    by destruct Hc as [->|[->|[->|[->|[->|[->| ->]]]]]]. }
  by rewrite andb_true_r, orb_false_r.
Qed.

(** C4.  Frame invariant of embedding: for every well-formed carrier and
    every sequence [s] of bits within capacity, embedding succeeds, keeps
    the size of the image, and for the channel [c] of the pixel in
    column [x] of row [y], which is number [3 * (y * w + x) + c] in
    traversal order: when that number is below [length s] the new value
    is the old one with its least significant bit cleared and the bit
    or-ed in, so that bits 1 to 7 are those of the source; otherwise the
    channel is the source's, unchanged. *)
Theorem embed_frame (img : image) (s : list Z) :
  wf_image img → Forall is_bit s →
  length s ≤ img_width img * img_height img * 3 →
  ∃ img',
    embed_bits img s = (Ok img', img')
    ∧ img_width img' = img_width img
    ∧ img_height img' = img_height img
    ∧ length (img_pixels img') = length (img_pixels img)
    ∧ ∀ x y c, x < img_width img → y < img_height img → c < 3 →
        ∃ p p',
          img_pixels img !! (y * img_width img + x) = Some p
          ∧ img_pixels img' !! (y * img_width img + x) = Some p'
          ∧ match s !! (3 * (y * img_width img + x) + c) with
            | Some bit =>
                channel p' c = Z.lor (Z.land (channel p c) 254) bit
                ∧ Z.land (channel p' c) 1 = bit
                ∧ ∀ n, (1 ≤ n ≤ 7)%Z →
                    Z.testbit (channel p' c) n = Z.testbit (channel p c) n
            | None => channel p' c = channel p c
            end.
Proof.
  intros Hwf Hs Hcap. exists (embedded img s).
  split; [by apply embed_bits_ok|]. split; [done|]. split; [done|].
  split; [apply length_imap|].
  intros x y c Hx Hy Hc. set (k := y * img_width img + x).
  assert (k < length (img_pixels img)) as Hk by (rewrite Hwf; subst k; nia).
  destruct (lookup_lt_is_Some_2 _ _ Hk) as [p Hp].
  exists p, (emb_px s k p). split; [done|].
  split; [by rewrite lookup_embedded, Hp|].
  rewrite channel_emb_px by done.
  destruct (s !! (3 * k + c)) as [bit|] eqn:Hbit.
  - assert (is_bit bit) as Hb by (by eapply Forall_lookup_1).
    split; [unfold emb_ch; by rewrite Hbit|].
    split; [by apply lsb_emb_ch|].
    intros n Hn. unfold emb_ch. rewrite Hbit. by apply testbit_emb_written.
  - unfold emb_ch. by rewrite Hbit.
Qed.

Lemma embed_frame_witness :
  ∃ img',
    embed_bits (Image 2 1 [(10, 11, 12); (13, 14, 15)]%Z) [1; 1; 0; 0]%Z = (Ok img', img')
    ∧ img_pixels img' = [(11, 11, 12); (12, 14, 15)]%Z.
Proof.
  destruct (embed_frame (Image 2 1 [(10, 11, 12); (13, 14, 15)]%Z) [1; 1; 0; 0]%Z)
    as (img' & Hemb & _).
  - reflexivity.
  - solve_bits.
  - simpl. lia.
  - exists img'. split; [assumption|].
    vm_compute in Hemb. by injection Hemb as <-.
Defined.

Lemma extractDataFromPng_ok d dataLen :
  dataLen * 8 ≤ id_width d * id_height d * 3 →
  extractDataFromPng d dataLen
  = Ok (lsbBitsToBytes (map (rgba_lsb (id_data d)) (seq 0 (dataLen * 8)))).
Proof. intros Hcap. unfold extractDataFromPng. by rewrite extract_bits_ok. Qed.

Lemma extractDataFromPng_too_long d dataLen :
  id_width d * id_height d * 3 < dataLen * 8 →
  extractDataFromPng d dataLen
  = Raise (DataTooLong (dataLen * 8) (id_width d * id_height d * 3)).
Proof. intros Hcap. unfold extractDataFromPng. by rewrite extract_bits_too_long. Qed.

(** C5.  Capacity gate with atomicity.  Writer: on a well-formed carrier
    [embed_data_in_png] raises exactly when the number of bits,
    [8 * length data], exceeds [width * height * 3]; the exception is the
    capacity error and the in-memory carrier is the input, unchanged.
    Reader: [extractDataFromPng] throws exactly when [dataLen * 8] exceeds
    [width * height * 3], and then the outcome is the capacity error
    whatever the pixel data are. *)
Theorem capacity_gate (img : image) (data : list Z) (d : ImageData) (dataLen : nat) :
  wf_image img →
  ((∃ e, (embed_data_in_png img data).1 = Raise e)
     ↔ img_width img * img_height img * 3 < 8 * length data)
  ∧ (img_width img * img_height img * 3 < 8 * length data →
       embed_data_in_png img data
       = (Raise (DataTooLarge (8 * length data) (img_width img * img_height img * 3)),
          img))
  ∧ ((∃ e, extractDataFromPng d dataLen = Raise e)
       ↔ id_width d * id_height d * 3 < dataLen * 8)
  ∧ (id_width d * id_height d * 3 < dataLen * 8 →
       ∀ pixels',
         extractDataFromPng (mkImageData (id_width d) (id_height d) pixels') dataLen
         = Raise (DataTooLong (dataLen * 8) (id_width d * id_height d * 3))).
Proof.
  intros Hwf.
  assert (img_width img * img_height img * 3 < 8 * length data →
          embed_data_in_png img data
          = (Raise (DataTooLarge (8 * length data)
                      (img_width img * img_height img * 3)), img)) as Hraise.
  { intros Hcap. unfold embed_data_in_png.
    rewrite embed_bits_too_large; rewrite length_bytes_to_lsb_bits; done. }
  split; [|split; [done|split]].
  - split.
    + intros [e He].
      destruct (decide (img_width img * img_height img * 3 < 8 * length data))
        as [|Hfit]; [done|].
      unfold embed_data_in_png in He. rewrite embed_bits_ok in He; [done|done|].
      rewrite length_bytes_to_lsb_bits. lia.
    + intros Hcap. rewrite Hraise by done. by eexists.
  - split.
    + intros [e He].
      destruct (decide (id_width d * id_height d * 3 < dataLen * 8))
        as [|Hfit]; [done|].
      rewrite extractDataFromPng_ok in He by lia. done.
    + intros Hcap. rewrite extractDataFromPng_too_long by done. by eexists.
  - intros Hcap pixels'. by rewrite extractDataFromPng_too_long.
Qed.

Lemma capacity_gate_witness :
  embed_data_in_png (Image 2 1 [(10, 11, 12); (13, 14, 15)]%Z) [255]%Z
  = (Raise (DataTooLarge 8 6), Image 2 1 [(10, 11, 12); (13, 14, 15)]%Z).
Proof.
  apply (capacity_gate (Image 2 1 [(10, 11, 12); (13, 14, 15)]%Z) [255]%Z
           (mkImageData 0 0 []) 0).
  - reflexivity.
  - simpl. lia.
Defined.

(** C6.  Trailing least significant bits are ignored: two canvases of
    equal size whose first [dataLen * 8] channel bits in traversal order
    agree (bit [3 * k + c] is the least significant bit of entry
    [k * 4 + c]) give the same outcome of [extractDataFromPng], whatever
    all their other entries are; within capacity exactly [dataLen * 8]
    bits are read and the outcome is a sequence of exactly [dataLen]
    bytes. *)
Theorem extract_ignores_trailing (d1 d2 : ImageData) (dataLen : nat) :
  id_width d1 = id_width d2 → id_height d1 = id_height d2 →
  (∀ k c, c < 3 → 3 * k + c < dataLen * 8 →
     js_and (js_num (id_data d1 !! (k * 4 + c))) 1
     = js_and (js_num (id_data d2 !! (k * 4 + c))) 1) →
  extractDataFromPng d1 dataLen = extractDataFromPng d2 dataLen
  ∧ (dataLen * 8 ≤ id_width d1 * id_height d1 * 3 →
       (∃ bits, extract_bits d1 (dataLen * 8) = Ok bits ∧ length bits = dataLen * 8)
       ∧ ∃ bytes, extractDataFromPng d1 dataLen = Ok bytes ∧ length bytes = dataLen).
Proof.
  intros Hw Hh Hagree.
  destruct (decide (dataLen * 8 ≤ id_width d1 * id_height d1 * 3)) as [Hcap|Hcap].
  - assert (map (rgba_lsb (id_data d1)) (seq 0 (dataLen * 8))
            = map (rgba_lsb (id_data d2)) (seq 0 (dataLen * 8))) as Hbits.
    { apply map_ext_in. intros i Hi%in_seq.
      pose proof (Nat.div_mod_eq i 3) as Hdm.
      pose proof (Nat.mod_upper_bound i 3) as Hm.
      unfold rgba_lsb. apply Hagree; lia. }
    split.
    + rewrite !extractDataFromPng_ok by (rewrite <- ?Hw, <- ?Hh; done).
      by rewrite Hbits.
    + intros _. split.
      * eexists. split; [by apply extract_bits_ok|].
        by rewrite length_map, length_seq.
      * eexists. split; [by apply extractDataFromPng_ok|].
        rewrite lsbBitsToBytes_map, !length_map, !length_seq.
        by rewrite Nat.div_mul.
  - split; [|done].
    rewrite !extractDataFromPng_too_long by (rewrite <- ?Hw, <- ?Hh; lia).
    by rewrite Hw, Hh.
Qed.

Lemma extract_ignores_trailing_witness :
  extractDataFromPng (mkImageData 3 1 [1; 0; 1; 255; 0; 0; 1; 255; 1; 0; 0; 255]%Z) 1
  = extractDataFromPng (mkImageData 3 1 [7; 8; 9; 255; 4; 6; 5; 255; 3; 2; 1; 77]%Z) 1.
Proof.
  apply (extract_ignores_trailing
           (mkImageData 3 1 [1; 0; 1; 255; 0; 0; 1; 255; 1; 0; 0; 255]%Z)
           (mkImageData 3 1 [7; 8; 9; 255; 4; 6; 5; 255; 3; 2; 1; 77]%Z) 1).
  - reflexivity.
  - reflexivity.
  - intros k c Hc Hlt.
    destruct k as [|[|[|k]]]; [| | |lia];
      (destruct c as [|[|[|c]]]; [| | |lia]); first [reflexivity | simpl in Hlt; lia].
Defined.
End codec_theorems.

(** ** Payload framing *)

Section framing.
Import encoder app.

Lemma land_255 x : Z.land x 255 = (x mod 256)%Z.
Proof. change 255%Z with (Z.ones 8). by rewrite Z.land_ones by lia. Qed.

Lemma struct_pack_be32_ok n :
  (0 ≤ n < 2 ^ 32)%Z →
  ∃ b0 b1 b2 b3,
    struct_pack_be32 n = Ok [b0; b1; b2; b3]
    ∧ Forall is_byte [b0; b1; b2; b3]
    ∧ (b0 * 2 ^ 24 + b1 * 2 ^ 16 + b2 * 2 ^ 8 + b3 = n)%Z.
Proof.
  intros Hn. unfold struct_pack_be32.
  destruct (Z.leb_spec 0 n); [|lia]. destruct (Z.ltb_spec n (2 ^ 32)); [|lia].
  cbn [andb]. eexists _, _, _, _. split; [done|].
  rewrite !land_255, !Z.shiftr_div_pow2 by lia.
  change (2 ^ 32)%Z with 4294967296%Z in *.
  change (2 ^ 24)%Z with 16777216%Z. change (2 ^ 16)%Z with 65536%Z.
  change (2 ^ 8)%Z with 256%Z.
  split.
  - repeat constructor; unfold is_byte; apply Z.mod_pos_bound; lia.
  - Z.div_mod_to_equations. lia.
Qed.

Lemma struct_pack_be32_range n :
  ¬ (0 ≤ n < 2 ^ 32)%Z → struct_pack_be32 n = Raise StructError.
Proof.
  intros Hn. unfold struct_pack_be32.
  destruct (Z.leb_spec 0 n), (Z.ltb_spec n (2 ^ 32)); try done; lia.
Qed.

Lemma slice_0 a n : slice a 0 n = take n a.
Proof. unfold slice. by rewrite Nat.sub_0_r, drop_0. Qed.

Lemma slice_from a start n : slice a start (start + n) = take n (drop start a).
Proof. unfold slice. f_equal. lia. Qed.

Lemma unframe_short payload :
  length payload < 16 → unframe payload = Raise RangeError.
Proof.
  intros Hlen. unfold unframe, getUint32_be.
  by destruct (Nat.ltb_spec (length payload) (12 + 4)); [|lia].
Qed.

Lemma unframe_long payload :
  16 ≤ length payload →
  ∃ ctLen,
    getUint32_be payload 12 = Ok ctLen
    ∧ unframe payload
      = Ok (take 12 payload, ctLen, take (Z.to_nat ctLen) (drop 16 payload)).
Proof.
  intros Hlen. unfold unframe, getUint32_be.
  destruct (Nat.ltb_spec (length payload) (12 + 4)); [lia|].
  eexists. split; [done|]. cbn [mbind result_bind Ok mret result_ret].
  by rewrite slice_0, slice_from.
Qed.

(** The reader parses what the writer framed. *)
Lemma unframe_build_payload `{PyCrypto} nonce ct :
  length nonce = 12 → (Z.of_nat (length ct) < 2 ^ 32)%Z →
  ∃ payload,
    build_payload nonce ct = Ok payload
    ∧ length payload = 16 + length ct
    ∧ unframe payload = Ok (nonce, Z.of_nat (length ct), ct).
Proof.
  intros Hnonce Hct. unfold build_payload.
  destruct (struct_pack_be32_ok (Z.of_nat (length ct)))
    as (b0 & b1 & b2 & b3 & -> & Hb & Hval); [lia|].
  eexists. split; [done|].
  split; [rewrite !length_app, Hnonce; simpl; lia|].
  unfold unframe, getUint32_be. rewrite !length_app, Hnonce. cbn [length].
  destruct (Nat.ltb_spec (12 + (4 + length ct)) (12 + 4)); [lia|].
  cbn [mbind result_bind Ok mret result_ret].
  assert (∀ i, i < 4 →
            (nonce ++ [b0; b1; b2; b3] ++ ct) !! (12 + i) = [b0; b1; b2; b3] !! i) as Hrd.
  { intros i Hi. rewrite lookup_app_r by lia. rewrite Hnonce.
    replace (12 + i - 12) with i by lia. by rewrite lookup_app_l by (simpl; lia). }
  rewrite !Hrd by lia. cbn [lookup list_lookup js_num default from_option].
  unfold Datatypes.id.
  rewrite Hval, Nat2Z.id, slice_0, slice_from.
  rewrite take_app_length' by done.
  replace 16 with (length (nonce ++ [b0; b1; b2; b3]))
    by (rewrite length_app, Hnonce; done).
  rewrite (app_assoc nonce), drop_app_length.
  by rewrite firstn_all.
Qed.
End framing.

(** ** The reader's framing *)

Section read_path_framing.
Import encoder app.

(** C3, counterexample.  A payload of 20 bytes is embedded in a blank
    carrier and extracted with the declared length 20; its length field
    says 2 where the declared length minus 16 is 4.  Nothing is raised:
    the fields are cut out and the ciphertext handed on is the first two
    bytes only. *)
Lemma unframe_accepts_wrong_length :
  ∃ saved,
    (embed_data_in_png (Image 8 7 (replicate 56 (0, 0, 0)%Z))
       (replicate 12 0 ++ [0; 0; 0; 2] ++ [9; 8; 7; 6])%Z).1 = Ok saved
    ∧ extractDataFromPng (getImageData saved) 20
      = Ok (replicate 12 0 ++ [0; 0; 0; 2] ++ [9; 8; 7; 6])%Z
    ∧ getUint32_be (replicate 12 0 ++ [0; 0; 0; 2] ++ [9; 8; 7; 6])%Z 12 = Ok 2%Z
    ∧ unframe (replicate 12 0 ++ [0; 0; 0; 2] ++ [9; 8; 7; 6])%Z
      = Ok (replicate 12 0%Z, 2%Z, [9; 8]%Z).
Proof.
  eexists. split; [vm_compute; reflexivity|].
  split; [vm_compute; reflexivity|]. split; vm_compute; reflexivity.
Qed.

(** C3, as amended.  The reader does not compare the embedded length
    field with the declared total length.  A payload shorter than 16
    bytes fails with the range error of the data view; any other payload
    is cut at fixed offsets: the nonce is its first 12 bytes, the length
    is read big-endian from bytes 12 to 15, and the ciphertext handed to
    AES-GCM decryption is [payload.slice(16, 16 + ctLen)], clamped to
    the payload: all the bytes after the header when the field is at
    least the declared length minus 16, only the first [ctLen] of them
    when it is smaller. *)
Theorem unframe_trusts_length_field `{WebCrypto} (payload : list Z) :
  (length payload < 16 → unframe payload = Raise RangeError)
  ∧ (16 ≤ length payload →
       ∃ ctLen,
         getUint32_be payload 12 = Ok ctLen
         ∧ unframe payload
           = Ok (take 12 payload, ctLen, take (Z.to_nat ctLen) (drop 16 payload))
         ∧ (length payload - 16 ≤ Z.to_nat ctLen →
              take (Z.to_nat ctLen) (drop 16 payload) = drop 16 payload)
         ∧ (Z.to_nat ctLen < length payload - 16 →
              length (take (Z.to_nat ctLen) (drop 16 payload)) = Z.to_nat ctLen)
         ∧ ∀ key img n,
             extractDataFromPng img n = Ok payload →
             extractAndDecryptPng key img n
             = aesGcmDecrypt (take 12 payload)
                 (take (Z.to_nat ctLen) (drop 16 payload)) key).
Proof.
  split; [apply unframe_short|]. intros Hlen.
  destruct (unframe_long payload Hlen) as (ctLen & Hfield & Hun).
  exists ctLen. split; [done|]. split; [done|]. split; [|split].
  - intros Hge. apply take_ge. rewrite length_drop. lia.
  - intros Hlt. rewrite length_take, length_drop. lia.
  - intros key img n Hext. unfold extractAndDecryptPng.
    rewrite Hext. cbn [mbind result_bind Ok]. by rewrite Hun.
Qed.

Lemma unframe_trusts_length_field_witness :
  extractAndDecryptPng (replicate 16 1%Z)
    (getImageData
       (embedded (Image 8 7 (replicate 56 (0, 0, 0)%Z))
          (bytes_to_lsb_bits (replicate 12 0 ++ [0; 0; 0; 2] ++ [9; 8; 7; 6])%Z)))
    20
  = aesGcmDecrypt (replicate 12 0%Z) [9; 8]%Z (replicate 16 1%Z).
Proof.
  destruct (proj2 (unframe_trusts_length_field
                     (replicate 12 0 ++ [0; 0; 0; 2] ++ [9; 8; 7; 6])%Z))
    as (ctLen & Hfield & _ & _ & _ & Hrun).
  - simpl. lia.
  - injection Hfield as <-. apply Hrun. vm_compute. reflexivity.
Defined.
End read_path_framing.

(** ** The writer's AEAD engine and framing *)

Section write_path.
Import encoder app.

(** C7.  Envelope framing: whenever the key is accepted, the encryption
    returns the ciphertext-with-tag [ct] (shorter than 2^32 bytes) and
    the envelope fits the carrier, [encrypt_and_embed] embeds exactly
    the nonce (12 bytes), then the length of [ct] as four big-endian
    bytes, then [ct], with nothing before, between or after, and returns
    [16 + length ct]. *)
Theorem envelope_framing `{PyCrypto} (plaintext : string) (key : list Z)
    (img : image) (c : aesgcm) (ct : list Z) :
  AESGCM key = Ok c →
  AESGCM_encrypt c (os_urandom 12) (utf8_encode plaintext) = Ok ct →
  (Z.of_nat (length ct) < 2 ^ 32)%Z →
  wf_image img →
  8 * (16 + length ct) ≤ img_width img * img_height img * 3 →
  ∃ b0 b1 b2 b3,
    Forall is_byte [b0; b1; b2; b3]
    ∧ (b0 * 2 ^ 24 + b1 * 2 ^ 16 + b2 * 2 ^ 8 + b3 = Z.of_nat (length ct))%Z
    ∧ length (os_urandom 12) = 12
    ∧ length (os_urandom 12 ++ [b0; b1; b2; b3] ++ ct) = 16 + length ct
    ∧ encrypt_and_embed plaintext key img
      = Ok (16 + length ct,
            embedded img (bytes_to_lsb_bits (os_urandom 12 ++ [b0; b1; b2; b3] ++ ct)))
    ∧ (embed_data_in_png img (os_urandom 12 ++ [b0; b1; b2; b3] ++ ct)).1
      = Ok (embedded img (bytes_to_lsb_bits (os_urandom 12 ++ [b0; b1; b2; b3] ++ ct))).
Proof.
  intros Hkey Henc Hlen Hwf Hcap.
  destruct (struct_pack_be32_ok (Z.of_nat (length ct)))
    as (b0 & b1 & b2 & b3 & Hpack & Hb & Hval); [lia|].
  exists b0, b1, b2, b3. split; [done|]. split; [done|].
  split; [apply os_urandom_length|].
  assert (length (os_urandom 12 ++ [b0; b1; b2; b3] ++ ct) = 16 + length ct) as Hl.
  { rewrite !length_app, os_urandom_length. simpl. lia. }
  split; [done|].
  assert ((embed_data_in_png img (os_urandom 12 ++ [b0; b1; b2; b3] ++ ct)).1
          = Ok (embedded img
                  (bytes_to_lsb_bits (os_urandom 12 ++ [b0; b1; b2; b3] ++ ct)))) as Hemb.
  { unfold embed_data_in_png. rewrite embed_bits_ok; [done|done|].
    rewrite length_bytes_to_lsb_bits, Hl. lia. }
  split; [|done].
  unfold encrypt_and_embed, aes_gcm_encrypt, build_payload.
  rewrite Hkey. cbn [mbind result_bind Ok mret result_ret].
  rewrite Henc. cbn [mbind result_bind Ok mret result_ret].
  rewrite Hpack. cbn [mbind result_bind Ok mret result_ret].
  rewrite Hemb. cbn [mbind result_bind Ok mret result_ret].
  by rewrite Hl.
Qed.

Lemma envelope_framing_witness :
  ∃ saved,
    encrypt_and_embed "hi" (replicate 16 7%Z)
      (Image 10 10 (replicate 100 (0, 0, 0)%Z))
    = Ok (34, saved).
Proof.
  destruct (envelope_framing (H:=test_crypto) "hi" (replicate 16 7%Z)
              (Image 10 10 (replicate 100 (0, 0, 0)%Z))
              (replicate 16 7%Z) ([104; 105]%Z ++ test_tag))
    as (b0 & b1 & b2 & b3 & _ & _ & _ & _ & Hrun & _).
  - reflexivity.
  - reflexivity.
  - simpl. lia.
  - reflexivity.
  - simpl. lia.
  - eexists. exact Hrun.
Defined.

(** The constructor of the stand-in library takes the keys that the
    constructor of the cryptography package takes. *)
Lemma test_crypto_constructor : cryptography_AESGCM (H:=test_crypto).
Proof.
  intros key. cbn [AESGCM test_crypto]. unfold test_key_ok, library_key_length.
  split.
  - intros Hlen. exists key. by rewrite bool_decide_eq_true_2.
  - intros Hlen. by rewrite bool_decide_eq_false_2.
Qed.

(** C8, counterexample.  With a constructor that takes the key sizes
    the library documents (128, 192 and 256 bits), a key of 24 bytes,
    which is neither 16 nor 32 bytes long, is not rejected: it is used for
    the encryption. *)
Lemma aes_gcm_encrypt_takes_24_byte_key :
  length (replicate 24 7%Z) = 24
  ∧ aes_gcm_encrypt "hi" (replicate 24 7%Z)
    = Ok (replicate 12 0%Z, [104; 105]%Z ++ test_tag)
  ∧ cryptography_AESGCM (H:=test_crypto)
  ∧ encoder_calls.aes_gcm_encrypt "hi" (replicate 24 7%Z) []
    = (Ok (replicate 12 0%Z, [104; 105]%Z ++ test_tag),
       [encoder_calls.Call_AESGCM (replicate 24 7%Z); encoder_calls.Call_urandom 12;
        encoder_calls.Call_encode "hi";
        encoder_calls.Call_encrypt (replicate 12 0%Z) [104; 105]%Z]).
Proof.
  split; [reflexivity|]. split; [reflexivity|].
  split; [apply test_crypto_constructor|reflexivity].
Qed.

(** C8, as amended.  [aes_gcm_encrypt] has no key-length check of its
    own: its first library call hands the key to the AES-GCM constructor,
    and the key lengths accepted are those that the constructor accepts.  A
    key that the constructor refuses makes [aes_gcm_encrypt], and with it
    [encrypt_and_embed], fail with the constructor's error when the
    constructor is the only call made: no nonce is drawn, nothing is encoded
    or encrypted, no carrier is saved.  A key that it accepts reaches
    [os.urandom(12)], the encoding and the encryption, in this order.  With
    the constructor of the cryptography package a key of 16, 24 or 32 bytes
    is accepted and reaches the encryption, and a key of any other length is
    rejected in this way, before it is used. *)
Theorem key_gate_is_the_constructor `{PyCrypto} (plaintext : string) (key : list Z) :
  (∀ log, (encoder_calls.aes_gcm_encrypt plaintext key log).1
          = aes_gcm_encrypt plaintext key)
  ∧ (∀ e, AESGCM key = Raise e →
       encoder_calls.aes_gcm_encrypt plaintext key []
       = (Raise e, [encoder_calls.Call_AESGCM key])
       ∧ aes_gcm_encrypt plaintext key = Raise e
       ∧ ∀ img, encrypt_and_embed plaintext key img = Raise e)
  ∧ (∀ c, AESGCM key = Ok c →
       encoder_calls.aes_gcm_encrypt plaintext key []
       = (ct ← AESGCM_encrypt c (os_urandom 12) (utf8_encode plaintext);
          mret (os_urandom 12, ct),
          [encoder_calls.Call_AESGCM key; encoder_calls.Call_urandom 12;
           encoder_calls.Call_encode plaintext;
           encoder_calls.Call_encrypt (os_urandom 12) (utf8_encode plaintext)])
       ∧ aes_gcm_encrypt plaintext key
         = (ct ← AESGCM_encrypt c (os_urandom 12) (utf8_encode plaintext);
            mret (os_urandom 12, ct)))
  ∧ ((∃ r, aes_gcm_encrypt plaintext key = Ok r) → ∃ c, AESGCM key = Ok c)
  ∧ (cryptography_AESGCM →
       (library_key_length key →
          ∃ c, AESGCM key = Ok c
               ∧ (encoder_calls.aes_gcm_encrypt plaintext key []).2
                 = [encoder_calls.Call_AESGCM key; encoder_calls.Call_urandom 12;
                    encoder_calls.Call_encode plaintext;
                    encoder_calls.Call_encrypt (os_urandom 12)
                      (utf8_encode plaintext)])
       ∧ (¬ library_key_length key →
            encoder_calls.aes_gcm_encrypt plaintext key []
            = (Raise InvalidKey, [encoder_calls.Call_AESGCM key])
            ∧ aes_gcm_encrypt plaintext key = Raise InvalidKey
            ∧ ∀ img, encrypt_and_embed plaintext key img = Raise InvalidKey)).
Proof.
  assert (∀ e, AESGCM key = Raise e →
            encoder_calls.aes_gcm_encrypt plaintext key []
            = (Raise e, [encoder_calls.Call_AESGCM key])
            ∧ aes_gcm_encrypt plaintext key = Raise e
            ∧ ∀ img, encrypt_and_embed plaintext key img = Raise e) as Hrefused.
  { intros e He. split; [|split].
    - unfold encoder_calls.aes_gcm_encrypt, mbind, encoder_calls.CallM_bind,
        encoder_calls.library. by rewrite He.
    - unfold aes_gcm_encrypt. by rewrite He.
    - intros img. unfold encrypt_and_embed, aes_gcm_encrypt. by rewrite He. }
  assert (∀ c, AESGCM key = Ok c →
            encoder_calls.aes_gcm_encrypt plaintext key []
            = (ct ← AESGCM_encrypt c (os_urandom 12) (utf8_encode plaintext);
               mret (os_urandom 12, ct),
               [encoder_calls.Call_AESGCM key; encoder_calls.Call_urandom 12;
                encoder_calls.Call_encode plaintext;
                encoder_calls.Call_encrypt (os_urandom 12) (utf8_encode plaintext)]))
    as Haccepted.
  { intros c Hc.
    unfold encoder_calls.aes_gcm_encrypt, mbind, encoder_calls.CallM_bind,
      encoder_calls.library, mret, encoder_calls.CallM_ret.
    rewrite Hc. cbn [Ok app].
    by destruct (AESGCM_encrypt c (os_urandom 12) (utf8_encode plaintext)). }
  split; [|split; [done|split; [|split]]].
  - intros log.
    unfold encoder_calls.aes_gcm_encrypt, aes_gcm_encrypt, mbind,
      encoder_calls.CallM_bind, encoder_calls.library, mret, encoder_calls.CallM_ret.
    destruct (AESGCM key) as [e|c]; [done|]. cbn [Ok result_bind].
    by destruct (AESGCM_encrypt c (os_urandom 12) (utf8_encode plaintext)).
  - intros c Hc. split; [by apply Haccepted|].
    unfold aes_gcm_encrypt. by rewrite Hc.
  - intros [r Hr]. unfold aes_gcm_encrypt in Hr.
    destruct (AESGCM key) as [e|c]; [done|by exists c].
  - intros Hlib. destruct (Hlib key) as [Hyes Hno]. split.
    + intros Hlen. destruct (Hyes Hlen) as [c Hc]. exists c. split; [done|].
      by rewrite (Haccepted c Hc).
    + intros Hlen. apply Hrefused, Hno, Hlen.
Qed.

Lemma key_gate_is_the_constructor_witness :
  cryptography_AESGCM (H:=test_crypto)
  ∧ ¬ library_key_length (replicate 17 7%Z)
  ∧ encoder_calls.aes_gcm_encrypt "hi" (replicate 17 7%Z) []
    = (Raise InvalidKey, [encoder_calls.Call_AESGCM (replicate 17 7%Z)]).
Proof.
  pose proof test_crypto_constructor as Hlib.
  assert (¬ library_key_length (replicate 17 7%Z)) as Hlen.
  { unfold library_key_length. cbn [replicate length]. lia. }
  split; [exact Hlib|]. split; [exact Hlen|].
  exact (proj1 (proj2 (proj2 (proj2 (proj2 (proj2
           (key_gate_is_the_constructor (H:=test_crypto) "hi" (replicate 17 7%Z)))))
           Hlib) Hlen)).
Defined.

(** The scenario of the specification: "hello world" under a 16-byte key
    gives a ciphertext-with-tag of 27 bytes and an envelope of 43 bytes, 344
    bits; a carrier of 12 by 12 pixels takes it, one of 8 by 8 does not. *)
Example hello_world_fits :
  match encrypt_and_embed "hello world" (replicate 16 7%Z)
          (Image 12 12 (replicate 144 (128, 128, 128)%Z)) with
  | inr (n, saved) =>
      n = 43
      ∧ extractDataFromPng (getImageData saved) 43
        = Ok (replicate 12 0%Z ++ [0; 0; 0; 27]%Z ++ text_bytes "hello world" ++ test_tag)
  | inl _ => False
  end.
Proof. vm_compute. split; reflexivity. Qed.

Example hello_world_too_large :
  encrypt_and_embed "hello world" (replicate 16 7%Z)
    (Image 8 8 (replicate 64 (128, 128, 128)%Z))
  = Raise (DataTooLarge 344 192).
Proof. vm_compute. reflexivity. Qed.
End write_path.

(** ** The mapping registry *)

Section registry_proofs.
Import app.
Context `{PyStr}.

Lemma line_cases line :
  skipped_line line ∨ (∃ key e, record_line line key e) ∨ bad_length_line line.
Proof.
  unfold skipped_line, record_line, bad_length_line.
  destruct (decide (str_strip line = EmptyString)) as [|Hne]; [by left; left|].
  destruct (decide (length (fields line) = 4)) as [Hlen|]; [|by left; right].
  destruct (fields line) as [|a [|p [|k [|n [|? ?]]]]] eqn:Hf; try done.
  right. destruct (py_int n) as [v|] eqn:Hn.
  - left. eexists _, _. split; [done|]. by exists a, p, k, n, v.
  - right. split; [done|]. by exists a, p, k, n.
Qed.

Lemma skipped_not_record line key e :
  skipped_line line → record_line line key e → False.
Proof.
  intros [Hs|Hs] [Hne (a & p & k & n & v & Hf & _)]; [done|].
  by rewrite Hf in Hs.
Qed.

Lemma skipped_not_bad line : skipped_line line → bad_length_line line → False.
Proof.
  intros [Hs|Hs] [Hne (a & p & k & n & Hf & _)]; [done|].
  by rewrite Hf in Hs.
Qed.

Lemma record_not_bad line key e :
  record_line line key e → bad_length_line line → False.
Proof.
  intros [_ (a & p & k & n & v & Hf & Hn & _)] [_ (a' & p' & k' & n' & Hf' & Hn')].
  rewrite Hf in Hf'. injection Hf' as <- <- <- <-. congruence.
Qed.

Lemma record_line_functional line key1 e1 key2 e2 :
  record_line line key1 e1 → record_line line key2 e2 → key1 = key2 ∧ e1 = e2.
Proof.
  intros [_ (a & p & k & n & v & Hf & Hn & -> & ->)]
         [_ (a' & p' & k' & n' & v' & Hf' & Hn' & -> & ->)].
  rewrite Hf in Hf'. injection Hf' as <- <- <- <-.
  rewrite Hn in Hn'. by injection Hn' as <-.
Qed.

Lemma mapping_loop_skip line rest mp :
  skipped_line line → mapping_loop (line :: rest) mp = mapping_loop rest mp.
Proof.
  intros Hs. cbn [mapping_loop].
  destruct (decide (str_strip line = EmptyString)); [done|].
  destruct Hs as [|Hs]; [done|]. unfold fields in Hs.
  by destruct (decide (length (str_split_tab (str_strip line)) ≠ 4)).
Qed.

Lemma mapping_loop_record line rest mp key e :
  record_line line key e →
  mapping_loop (line :: rest) mp = mapping_loop rest (<[key := e]> mp).
Proof.
  intros [Hne (a & p & k & n & v & Hf & Hn & -> & ->)]. cbn [mapping_loop].
  destruct (decide (str_strip line = EmptyString)); [done|].
  unfold fields in Hf. rewrite Hf. cbn [length].
  destruct (decide (4 ≠ 4)); [done|]. by rewrite Hn.
Qed.

Lemma mapping_loop_bad line rest mp :
  bad_length_line line → mapping_loop (line :: rest) mp = Raise InvalidLiteral.
Proof.
  intros [Hne (a & p & k & n & Hf & Hn)]. cbn [mapping_loop].
  destruct (decide (str_strip line = EmptyString)); [done|].
  unfold fields in Hf. rewrite Hf. cbn [length].
  destruct (decide (4 ≠ 4)); [done|]. by rewrite Hn.
Qed.

Lemma mapping_loop_drop_skipped pre line post : ∀ mp,
  skipped_line line →
  mapping_loop (pre ++ line :: post) mp = mapping_loop (pre ++ post) mp.
Proof.
  induction pre as [|l pre IH]; intros mp Hs; cbn [app].
  - by apply mapping_loop_skip.
  - destruct (line_cases l) as [Hl|[(key & e & Hl)|Hl]].
    + rewrite !(mapping_loop_skip l) by done. by apply IH.
    + rewrite !(mapping_loop_record l _ _ key e) by done. by apply IH.
    + by rewrite !(mapping_loop_bad l).
Qed.

Lemma mapping_loop_ok rest : ∀ mp,
  (∀ line, line ∈ rest → skipped_line line ∨ ∃ key e, record_line line key e) →
  ∃ mp',
    mapping_loop rest mp = Ok mp'
    ∧ ∀ key, is_Some (mp' !! key)
             ↔ is_Some (mp !! key) ∨ ∃ line e, line ∈ rest ∧ record_line line key e.
Proof.
  induction rest as [|l rest IH]; intros mp Hall.
  - exists mp. split; [done|]. intros key. split; [by left|].
    intros [|(line & e & Hin & _)]; [done|]. by apply elem_of_nil in Hin.
  - assert (∀ line, line ∈ rest →
              skipped_line line ∨ ∃ key e, record_line line key e) as Hrest
      by (intros line Hin; apply Hall; by right).
    destruct (Hall l) as [Hl|(key0 & e0 & Hl)]; [by left| |].
    + rewrite mapping_loop_skip by done.
      destruct (IH mp Hrest) as (mp' & -> & Hdom). exists mp'. split; [done|].
      intros key. rewrite Hdom. split.
      * intros [|(line & e & Hin & Hrec)]; [by left|].
        right. exists line, e. split; [by right|done].
      * intros [|(line & e & Hin & Hrec)]; [by left|].
        apply elem_of_cons in Hin as [->|Hin].
        -- by destruct (skipped_not_record l key e).
        -- right. by exists line, e.
    + rewrite (mapping_loop_record l _ _ key0 e0) by done.
      destruct (IH (<[key0 := e0]> mp) Hrest) as (mp' & -> & Hdom).
      exists mp'. split; [done|].
      intros key. rewrite Hdom, lookup_insert_is_Some. split.
      * intros [[->|[_ ?]]|(line & e & Hin & Hrec)].
        -- right. exists l, e0. split; [by left|done].
        -- by left.
        -- right. exists line, e. split; [by right|done].
      * intros [Hmp|(line & e & Hin & Hrec)].
        -- left. destruct (decide (key0 = key)); [by left|by right].
        -- apply elem_of_cons in Hin as [->|Hin].
           ++ left. left. by destruct (record_line_functional l key0 e0 key e).
           ++ right. by exists line, e.
Qed.

Lemma mapping_loop_raises rest : ∀ mp,
  (∃ line, line ∈ rest ∧ bad_length_line line) →
  mapping_loop rest mp = Raise InvalidLiteral.
Proof.
  induction rest as [|l rest IH]; intros mp (line & Hin & Hbad).
  - by apply elem_of_nil in Hin.
  - destruct (line_cases l) as [Hl|[(key & e & Hl)|Hl]].
    + rewrite mapping_loop_skip by done. apply IH.
      apply elem_of_cons in Hin as [->|Hin]; [|by exists line].
      by destruct (skipped_not_bad l).
    + rewrite (mapping_loop_record l _ _ key e) by done. apply IH.
      apply elem_of_cons in Hin as [->|Hin]; [|by exists line].
      by destruct (record_not_bad l key e).
    + by apply mapping_loop_bad.
Qed.

(** C9, as amended.  Mapping-registry tolerance: [read_article_mapping]
    never looks at the first line; the fields of a later line are counted
    after the line is stripped of white space at both ends.  A line that is
    blank once stripped, or whose stripped text does not split at tabs into
    exactly four fields, is passed over without raising and without effect;
    a line whose stripped text has four fields the last of which [int]
    reads sets the entry under the first field without its extension; and
    when every line after the header is of one of these two kinds the call
    returns a mapping whose keys are exactly the keys of the record
    lines. *)
Theorem mapping_tolerance (header : string) (rest : list string) :
  (∀ header', read_article_mapping (header :: rest)
              = read_article_mapping (header' :: rest))
  ∧ (∀ pre line post, rest = pre ++ line :: post → skipped_line line →
       read_article_mapping (header :: rest)
       = read_article_mapping (header :: pre ++ post))
  ∧ (∀ line rest' mp,
       (skipped_line line →
          mapping_loop (line :: rest') mp = mapping_loop rest' mp)
       ∧ ∀ a p k n v,
           str_strip line ≠ EmptyString →
           str_split_tab (str_strip line) = [a; p; k; n] → py_int n = Some v →
           mapping_loop (line :: rest') mp
           = mapping_loop rest'
               (<[(splitext a).1 := Entry (splitext a).1 p k v]> mp))
  ∧ ((∀ line, line ∈ rest →
        skipped_line line ∨ ∃ key e, record_line line key e) →
     ∃ mp,
       read_article_mapping (header :: rest) = Ok mp
       ∧ ∀ key, is_Some (mp !! key)
                ↔ ∃ line e, line ∈ rest ∧ record_line line key e).
Proof.
  split; [done|]. split; [|split].
  - intros pre line post -> Hs. cbn [read_article_mapping].
    by apply mapping_loop_drop_skipped.
  - intros line rest' mp. split; [apply mapping_loop_skip|].
    intros a p k n v Hne Hf Hn. apply mapping_loop_record.
    split; [done|]. by exists a, p, k, n, v.
  - intros Hall. cbn [read_article_mapping].
    destruct (mapping_loop_ok rest ∅ Hall) as (mp & Hrun & Hdom).
    exists mp. split; [done|]. intros key. rewrite Hdom. split.
    + intros [Hempty|?]; [|done]. rewrite lookup_empty in Hempty.
      by destruct Hempty.
    + intros ?. by right.
Qed.

(** C10, as amended.  A mapping file that has, after its first (header)
    line, a line whose stripped text splits at tabs into exactly four
    fields the last of which [int] rejects, is not read: the call raises
    the error of [int] and returns no mapping, whatever the other lines
    are. *)
Theorem bad_length_aborts (header : string) (rest : list string) :
  (∃ line, line ∈ rest ∧ bad_length_line line) →
  read_article_mapping (header :: rest) = Raise InvalidLiteral.
Proof. intros Hbad. cbn [read_article_mapping]. by apply mapping_loop_raises. Qed.
End registry_proofs.

Section registry_examples.
Import app.

Lemma mapping_tolerance_witness :
  ∃ mp,
    read_article_mapping
      [header_line;
       nl (cat_tab ["a.txt"; "enc/a.png"; "S0VZ"; "43"]);
       nl EmptyString;
       nl (cat_tab ["b.txt"; "enc/b.png"; "S0VZ"])]
    = Ok mp
    ∧ is_Some (mp !! "a").
Proof.
  destruct (proj2 (proj2 (proj2 (mapping_tolerance (H:=ascii_str) header_line
              [nl (cat_tab ["a.txt"; "enc/a.png"; "S0VZ"; "43"]);
               nl EmptyString;
               nl (cat_tab ["b.txt"; "enc/b.png"; "S0VZ"])]))))
    as (mp & Hrun & Hdom).
  - intros line Hin.
    apply elem_of_cons in Hin as [->|Hin];
      [|apply elem_of_cons in Hin as [->|Hin];
        [|apply list_elem_of_singleton in Hin as ->]].
    + right. eexists _, _. split; [vm_compute; discriminate|].
      eexists _, _, _, _, _. repeat split; vm_compute; reflexivity.
    + left. left. vm_compute. reflexivity.
    + left. right. vm_compute. lia.
  - exists mp. split; [exact Hrun|]. apply Hdom.
    eexists _, _. split; [by left|].
    split; [vm_compute; discriminate|].
    eexists _, _, _, _, _. repeat split; vm_compute; reflexivity.
Defined.

(** C9, counterexample.  A line that begins with a tab has five
    tab-separated fields and is not passed over: stripped, it has four, so
    that it is read as the record of an article, and with a length that
    [int] rejects it aborts the read. *)
Lemma leading_tab_line_is_not_skipped :
  str_split_tab (nl (cat_tab [EmptyString; "a.txt"; "enc/a.png"; "S0VZ"; "43"]))
  = [EmptyString; "a.txt"; "enc/a.png"; "S0VZ"; nl "43"]
  ∧ read_article_mapping
      [header_line; nl (cat_tab [EmptyString; "a.txt"; "enc/a.png"; "S0VZ"; "43"])]
    = Ok {[ "a" := Entry "a" "enc/a.png" "S0VZ" 43 ]}
  ∧ str_split_tab (nl (cat_tab [EmptyString; "a.txt"; "enc/a.png"; "S0VZ"; "4x"]))
    = [EmptyString; "a.txt"; "enc/a.png"; "S0VZ"; nl "4x"]
  ∧ read_article_mapping
      [header_line; nl (cat_tab [EmptyString; "a.txt"; "enc/a.png"; "S0VZ"; "4x"])]
    = Raise InvalidLiteral.
Proof. repeat split; vm_compute; reflexivity. Qed.

(** The header that the encoder writes is itself a line of four fields
    whose fourth field is not a number; it is the first line and is never
    parsed. *)
Lemma header_line_is_not_parsed :
  str_split_tab header_line
  = ["ARTICLE_NAME"; "IMAGE_PATH"; "AES_KEY_B64"; nl "PAYLOAD_LEN"]
  ∧ fields header_line = ["ARTICLE_NAME"; "IMAGE_PATH"; "AES_KEY_B64"; "PAYLOAD_LEN"]
  ∧ py_int "PAYLOAD_LEN" = None
  ∧ read_article_mapping
      [header_line; nl (cat_tab ["a.txt"; "enc/a.png"; "S0VZ"; "43"])]
    = Ok {[ "a" := Entry "a" "enc/a.png" "S0VZ" 43 ]}.
Proof. repeat split; vm_compute; reflexivity. Qed.

(** C10, counterexample.  A line after the header with exactly four
    tab-separated fields whose fourth field is empty, and so not a decimal
    integer: [int] rejects it, with or without the end of the line.  The
    line loses that field when it is stripped and is passed over as a line
    of three fields: nothing is raised and the read goes on. *)
Lemma empty_length_field_is_skipped :
  str_split_tab (cat_tab ["b.txt"; "enc/b.png"; "S0VZ"; EmptyString])
  = ["b.txt"; "enc/b.png"; "S0VZ"; EmptyString]
  ∧ str_split_tab (nl (cat_tab ["b.txt"; "enc/b.png"; "S0VZ"; EmptyString]))
    = ["b.txt"; "enc/b.png"; "S0VZ"; nl EmptyString]
  ∧ py_int EmptyString = None ∧ py_int (nl EmptyString) = None
  ∧ read_article_mapping
      [header_line; nl (cat_tab ["b.txt"; "enc/b.png"; "S0VZ"; EmptyString])]
    = Ok ∅
  ∧ read_article_mapping
      [header_line;
       nl (cat_tab ["b.txt"; "enc/b.png"; "S0VZ"; EmptyString]);
       nl (cat_tab ["a.txt"; "enc/a.png"; "S0VZ"; "43"])]
    = Ok {[ "a" := Entry "a" "enc/a.png" "S0VZ" 43 ]}.
Proof. repeat split; vm_compute; reflexivity. Qed.

Lemma bad_length_aborts_witness :
  read_article_mapping
    [header_line;
     nl (cat_tab ["a.txt"; "enc/a.png"; "S0VZ"; "43"]);
     nl (cat_tab ["b.txt"; "enc/b.png"; "S0VZ"; "4x"])]
  = Raise InvalidLiteral.
Proof.
  apply (bad_length_aborts (H:=ascii_str)).
  exists (nl (cat_tab ["b.txt"; "enc/b.png"; "S0VZ"; "4x"])).
  split; [by right; left|].
  split; [vm_compute; discriminate|].
  eexists _, _, _, _. split; vm_compute; reflexivity.
Defined.
End registry_examples.


(** * Further properties of the codec *)

(** ** The reader's bit planner on any bit sequence *)

Section planner_any_bits.
Import encoder app.

Lemma bits_of_packed_chunk chunk :
  length chunk = 8 → Forall is_bit chunk →
  bits_of_byte (ToUint8 (byte_loop chunk 0 (seq 0 8) 0)) = chunk.
Proof.
  intros Hlen Hbits.
  do 8 (destruct chunk as [|? chunk]; [done|]).
  destruct chunk; [|done].
  repeat match goal with
    | H : Forall _ (_ :: _) |- _ =>
        let Hb := fresh in apply Forall_cons in H as [Hb H]; destruct Hb as [-> | ->]
    end; vm_compute; reflexivity.
Qed.

Lemma is_byte_ToUint8 z : is_byte (ToUint8 z).
Proof. unfold is_byte, ToUint8. apply Z.mod_pos_bound. lia. Qed.

Lemma lsbBitsToBytes_length bits : length (lsbBitsToBytes bits) = length bits / 8.
Proof. by rewrite lsbBitsToBytes_map, length_map, length_seq. Qed.

Lemma lsbBitsToBytes_bytes bits : Forall is_byte (lsbBitsToBytes bits).
Proof.
  rewrite lsbBitsToBytes_map. apply Forall_forall. intros x Hx.
  apply list_elem_of_In, in_map_iff in Hx as (i & <- & _). apply is_byte_ToUint8.
Qed.

Lemma lsbBitsToBytes_lookup bits i :
  Forall is_bit bits → i < length bits / 8 →
  ∃ x, lsbBitsToBytes bits !! i = Some x
       ∧ bits_of_byte x = take 8 (drop (i * 8) bits).
Proof.
  intros Hbits Hi.
  pose proof (Nat.div_mod_eq (length bits) 8) as Hdm.
  eexists. split.
  - rewrite lsbBitsToBytes_map. change (map ?f ?l) with (f <$> l).
    by rewrite list_lookup_fmap, lookup_seq_lt.
  - cbn [Nat.add].
    rewrite (byte_loop_chunk _ (take 8 (drop (i * 8) bits))).
    + apply bits_of_packed_chunk.
      * rewrite length_take, length_drop. lia.
      * by apply Forall_take, Forall_drop.
    + lia.
    + rewrite length_take, length_drop. lia.
    + intros j Hj. by rewrite lookup_take_lt, lookup_drop.
    + apply seq_lt_8.
Qed.

(** X1.  For every sequence of bits, of any length, [lsbBitsToBytes]
    returns one byte for each complete group of eight bits and drops the
    incomplete group at the end: the result has [length bits / 8] entries,
    each between 0 and 255, and planning it again with the writer's
    [bytes_to_lsb_bits] gives the bits back up to the last multiple of
    eight. *)
Theorem lsbBitsToBytes_truncates (bits : list Z) :
  Forall is_bit bits →
  length (lsbBitsToBytes bits) = length bits / 8
  ∧ Forall is_byte (lsbBitsToBytes bits)
  ∧ bytes_to_lsb_bits (lsbBitsToBytes bits) = take (8 * (length bits / 8)) bits.
Proof.
  intros Hbits. split; [apply lsbBitsToBytes_length|].
  split; [apply lsbBitsToBytes_bytes|].
  pose proof (Nat.div_mod_eq (length bits) 8) as Hdm.
  rewrite bytes_to_lsb_bits_flat_map. apply list_eq. intros k.
  destruct (decide (k < 8 * (length bits / 8))) as [Hk|Hk].
  - pose proof (Nat.div_mod_eq k 8) as Hk8.
    pose proof (Nat.mod_upper_bound k 8) as Hm.
    rewrite lookup_take_lt by done. rewrite Hk8 at 1.
    rewrite (lookup_flat_map_chunks _ 8) by (done || lia).
    destruct (lsbBitsToBytes_lookup bits (k / 8)) as (x & -> & Hx); [done|lia|].
    cbn [mbind option_bind]. rewrite Hx, lookup_take_lt, lookup_drop by lia.
    f_equal. lia.
  - rewrite lookup_take_ge by lia. apply lookup_ge_None.
    rewrite (length_flat_map_chunks _ 8) by done.
    rewrite lsbBitsToBytes_length. lia.
Qed.

Lemma lsbBitsToBytes_truncates_witness :
  bytes_to_lsb_bits (lsbBitsToBytes [1; 0; 0; 0; 0; 0; 0; 1; 1; 1; 0]%Z)
  = [1; 0; 0; 0; 0; 0; 0; 1]%Z.
Proof.
  apply (lsbBitsToBytes_truncates [1; 0; 0; 0; 0; 0; 0; 1; 1; 1; 0]%Z).
  solve_bits.
Defined.
End planner_any_bits.

(** ** What embedding does to the carrier *)

Section embed_further.
Import encoder app.

Lemma emb_byte_all :
  forallb (λ n, forallb (λ b,
      let v := Z.of_nat n in
      let v' := Z.lor (Z.land v 254) b in
      (0 <=? v')%Z && (v' <? 256)%Z && (v' / 2 =? v / 2)%Z
      && (v - 1 <=? v')%Z && (v' <=? v + 1)%Z) [0; 1]%Z) (seq 0 256) = true.
Proof. vm_compute. reflexivity. Qed.

Lemma emb_byte v b :
  is_byte v → is_bit b →
  is_byte (Z.lor (Z.land v 254) b)
  ∧ (Z.lor (Z.land v 254) b / 2 = v / 2)%Z
  ∧ (v - 1 ≤ Z.lor (Z.land v 254) b ≤ v + 1)%Z.
Proof.
  intros Hv Hb. unfold is_byte in *. pose proof emb_byte_all as H.
  rewrite List.forallb_forall in H. specialize (H (Z.to_nat v)).
  rewrite List.forallb_forall in H. rewrite Z2Nat.id in H by lia.
  specialize (H ltac:(apply in_seq; lia) b
                ltac:(destruct Hb as [-> | ->]; simpl; auto)).
  cbv zeta in H. repeat (apply andb_prop in H as [H ?]).
  repeat match goal with
    | H : (_ <=? _)%Z = true |- _ => apply Z.leb_le in H
    | H : (_ <? _)%Z = true |- _ => apply Z.ltb_lt in H
    | H : (_ =? _)%Z = true |- _ => apply Z.eqb_eq in H
    end. lia.
Qed.

(** X2.  Embedding keeps an 8-bit image 8-bit and moves no channel by
    more than one: when every channel of a well-formed carrier is between
    0 and 255 and the bits fit, every channel of the saved image is between
    0 and 255, differs from the source's by at most 1 and has the same
    upper seven bits (the same half). *)
Theorem embed_distortion (img : image) (s : list Z) :
  wf_image img → Forall is_bit s →
  length s ≤ img_width img * img_height img * 3 →
  (∀ k p c, img_pixels img !! k = Some p → c < 3 → is_byte (channel p c)) →
  ∃ saved,
    embed_bits img s = (Ok saved, saved)
    ∧ ∀ k p c, img_pixels img !! k = Some p → c < 3 →
        ∃ p', img_pixels saved !! k = Some p'
          ∧ is_byte (channel p' c)
          ∧ (channel p' c / 2 = channel p c / 2)%Z
          ∧ (channel p c - 1 ≤ channel p' c ≤ channel p c + 1)%Z.
Proof.
  intros Hwf Hs Hcap H8. exists (embedded img s).
  split; [by apply embed_bits_ok|].
  intros k p c Hp Hc. exists (emb_px s k p).
  split; [by rewrite lookup_embedded, Hp|].
  rewrite channel_emb_px by done. unfold emb_ch.
  destruct (s !! (3 * k + c)) as [b|] eqn:Hb.
  - apply emb_byte; [by eapply H8|by eapply Forall_lookup_1].
  - split; [by eapply H8|]. split; [done|lia].
Qed.

Lemma embed_distortion_witness :
  ∃ saved,
    embed_bits (Image 2 1 [(10, 11, 12); (13, 14, 255)]%Z) [1; 1; 0; 0]%Z
    = (Ok saved, saved)
    ∧ img_pixels saved = [(11, 11, 12); (12, 14, 255)]%Z.
Proof.
  destruct (embed_distortion (Image 2 1 [(10, 11, 12); (13, 14, 255)]%Z) [1; 1; 0; 0]%Z)
    as (saved & Hemb & _).
  - reflexivity.
  - solve_bits.
  - simpl. lia.
  - intros k p c Hp Hc.
    destruct k as [|[|k]]; [| |done]; injection Hp as <-;
      (destruct c as [|[|[|c]]]; [| | |lia]); unfold is_byte; simpl; lia.
  - exists saved. split; [assumption|].
    vm_compute in Hemb. by injection Hemb as <-.
Defined.

Lemma emb_ch_twice s1 s2 i v :
  Forall is_bit s1 →
  emb_ch s2 i (emb_ch s1 i v) = emb_ch (s2 ++ drop (length s2) s1) i v.
Proof.
  intros Hs1. unfold emb_ch at 1 3.
  destruct (s2 !! i) as [b2|] eqn:H2.
  - rewrite (lookup_app_l_Some _ _ _ _ H2). unfold emb_ch.
    destruct (s1 !! i) as [b1|] eqn:H1; [|done]. f_equal.
    rewrite Z.land_lor_distr_l, <- Z.land_assoc. change (Z.land 254 254) with 254%Z.
    assert (Z.land b1 254 = 0%Z) as ->
      by (destruct (Forall_lookup_1 _ _ _ _ Hs1 H1) as [-> | ->]; reflexivity).
    apply Z.lor_0_r.
  - apply lookup_ge_None in H2.
    rewrite lookup_app_r, lookup_drop by done.
    replace (length s2 + (i - length s2)) with i by lia. done.
Qed.

Lemma embedded_twice img s1 s2 :
  Forall is_bit s1 →
  embedded (embedded img s1) s2 = embedded img (s2 ++ drop (length s2) s1).
Proof.
  intros Hs1. unfold embedded. cbn [img_width img_height img_pixels]. f_equal.
  apply list_eq. intros k. rewrite !list_lookup_imap.
  destruct (img_pixels img !! k) as [[[r g] b]|]; [|done].
  cbn [fmap option_fmap option_map emb_px]. by rewrite !emb_ch_twice.
Qed.

(** X3.  Embedding into a carrier that already holds a payload overwrites
    it bit for bit and clears nothing else: embedding [s2] into the image
    saved for [s1] gives the image that embedding [s2] followed by the bits
    of [s1] beyond [length s2] gives on the original carrier.  When [s1] is
    no longer than [s2] no trace of it is left; when it is longer its tail
    stays in the carrier. *)
Theorem embed_over_embedded (img : image) (s1 s2 : list Z) :
  wf_image img → Forall is_bit s1 →
  length s1 ≤ img_width img * img_height img * 3 →
  length s2 ≤ img_width img * img_height img * 3 →
  ∃ saved1 saved2,
    embed_bits img s1 = (Ok saved1, saved1)
    ∧ embed_bits saved1 s2 = (Ok saved2, saved2)
    ∧ embed_bits img (s2 ++ drop (length s2) s1) = (Ok saved2, saved2)
    ∧ (length s1 ≤ length s2 → embed_bits img s2 = (Ok saved2, saved2)).
Proof.
  intros Hwf Hs1 Hc1 Hc2.
  exists (embedded img s1), (embedded (embedded img s1) s2).
  split; [by apply embed_bits_ok|].
  split; [apply embed_bits_ok; [unfold wf_image, embedded; simpl;
                                 by rewrite length_imap|done]|].
  rewrite embedded_twice by done.
  split.
  - apply embed_bits_ok; [done|]. rewrite length_app, length_drop. lia.
  - intros Hle. rewrite drop_ge, app_nil_r by done. by apply embed_bits_ok.
Qed.

Lemma embed_over_embedded_witness :
  ∃ saved1 saved2,
    embed_bits (Image 2 1 [(10, 11, 12); (13, 14, 15)]%Z) [1; 1; 0; 0; 1]%Z
    = (Ok saved1, saved1)
    ∧ embed_bits saved1 [0; 0; 1]%Z = (Ok saved2, saved2)
    ∧ extract_bits (getImageData saved2) 5 = Ok [0; 0; 1; 0; 1]%Z.
Proof.
  destruct (embed_over_embedded (Image 2 1 [(10, 11, 12); (13, 14, 15)]%Z)
              [1; 1; 0; 0; 1]%Z [0; 0; 1]%Z)
    as (saved1 & saved2 & H1 & H2 & H3 & _).
  - reflexivity.
  - solve_bits.
  - simpl. lia.
  - simpl. lia.
  - exists saved1, saved2. split; [assumption|]. split; [assumption|].
    vm_compute in H3. injection H3 as <-. reflexivity.
Defined.
End embed_further.

(** ** Extraction of shorter and longer payloads *)

Section extract_further.
Import encoder app.

Lemma js_and_1_bit z : is_bit (js_and z 1).
Proof.
  rewrite js_and_1. change 1%Z with (Z.ones 1). rewrite Z.land_ones by lia.
  change (2 ^ 1)%Z with 2%Z. unfold is_bit.
  pose proof (Z.mod_pos_bound z 2). lia.
Qed.

Lemma byte_loop_agree bits bits' i :
  i * 8 + 8 ≤ length bits → i * 8 + 8 ≤ length bits' →
  (∀ j, j < 8 → bits !! (i * 8 + j) = bits' !! (i * 8 + j)) →
  byte_loop bits i (seq 0 8) 0 = byte_loop bits' i (seq 0 8) 0.
Proof.
  intros Hl Hl' Hrd.
  assert (length (take 8 (drop (i * 8) bits)) = 8) as Hc
    by (rewrite length_take, length_drop; lia).
  rewrite (byte_loop_chunk bits (take 8 (drop (i * 8) bits)));
    [|lia|done| |apply seq_lt_8].
  - rewrite (byte_loop_chunk bits' (take 8 (drop (i * 8) bits)));
      [done|lia|done| |apply seq_lt_8].
    intros j Hj. by rewrite lookup_take_lt, lookup_drop, Hrd.
  - intros j Hj. by rewrite lookup_take_lt, lookup_drop.
Qed.

Lemma lsbBitsToBytes_take bits n :
  8 * n ≤ length bits →
  lsbBitsToBytes (take (8 * n) bits) = take n (lsbBitsToBytes bits).
Proof.
  intros Hn. pose proof (Nat.div_mod_eq (length bits) 8) as Hdm.
  pose proof (Nat.mod_upper_bound (length bits) 8) as Hm.
  rewrite !lsbBitsToBytes_map, length_take_le by done.
  rewrite (Nat.mul_comm 8 n), Nat.div_mul by done.
  apply list_eq. intros i. change (map ?f ?l) with (f <$> l).
  destruct (decide (i < n)) as [Hi|Hi].
  - rewrite lookup_take_lt, !list_lookup_fmap, !lookup_seq_lt by lia.
    cbn [fmap option_fmap option_map Nat.add]. do 2 f_equal.
    apply byte_loop_agree.
    + rewrite length_take. lia.
    + lia.
    + intros j Hj. apply lookup_take_lt. lia.
  - rewrite lookup_take_ge by lia. rewrite list_lookup_fmap.
    by rewrite lookup_seq_ge by lia.
Qed.

(** X4.  Asking for fewer bytes gives a prefix: on every canvas, with
    whatever entries, a request of [m] bytes within capacity returns [m]
    bytes, each between 0 and 255, and a request of [n <= m] bytes returns
    the first [n] of them. *)
Theorem extract_prefix (d : ImageData) (n m : nat) :
  n ≤ m → m * 8 ≤ id_width d * id_height d * 3 →
  ∃ bytes,
    extractDataFromPng d m = Ok bytes
    ∧ length bytes = m
    ∧ Forall is_byte bytes
    ∧ extractDataFromPng d n = Ok (take n bytes).
Proof.
  intros Hnm Hcap. eexists. split; [by apply extractDataFromPng_ok|].
  split; [by rewrite lsbBitsToBytes_length, length_map, length_seq, Nat.div_mul|].
  split; [apply lsbBitsToBytes_bytes|].
  rewrite extractDataFromPng_ok by lia. f_equal.
  rewrite <- lsbBitsToBytes_take by (rewrite length_map, length_seq; lia).
  f_equal. change (map ?f ?l) with (f <$> l).
  rewrite <- fmap_take, take_seq. do 2 f_equal. lia.
Qed.

Lemma extract_prefix_witness :
  ∃ bytes,
    extractDataFromPng
      (mkImageData 6 1 [1; 0; 1; 255; 0; 0; 1; 255; 1; 0; 0; 255;
                        2; 3; 4; 255; 5; 6; 7; 255; 8; 9; 9; 255]%Z) 2
    = Ok bytes
    ∧ extractDataFromPng
        (mkImageData 6 1 [1; 0; 1; 255; 0; 0; 1; 255; 1; 0; 0; 255;
                          2; 3; 4; 255; 5; 6; 7; 255; 8; 9; 9; 255]%Z) 1
      = Ok (take 1 bytes).
Proof.
  destruct (extract_prefix
              (mkImageData 6 1 [1; 0; 1; 255; 0; 0; 1; 255; 1; 0; 0; 255;
                                2; 3; 4; 255; 5; 6; 7; 255; 8; 9; 9; 255]%Z) 1 2)
    as (bytes & Hm & _ & _ & Hn).
  - lia.
  - simpl. lia.
  - exists bytes. split; assumption.
Defined.
End extract_further.

(** ** The envelope from the writer to the reader *)

Section envelope_further.
Import encoder app.

Lemma build_payload_ok nonce ct :
  (Z.of_nat (length ct) < 2 ^ 32)%Z →
  ∃ b0 b1 b2 b3,
    Forall is_byte [b0; b1; b2; b3]
    ∧ build_payload nonce ct = Ok (nonce ++ [b0; b1; b2; b3] ++ ct).
Proof.
  intros Hct. unfold build_payload.
  destruct (struct_pack_be32_ok (Z.of_nat (length ct)))
    as (b0 & b1 & b2 & b3 & -> & Hb & _); [lia|].
  by exists b0, b1, b2, b3.
Qed.

Lemma build_payload_too_long nonce ct :
  (2 ^ 32 ≤ Z.of_nat (length ct))%Z → build_payload nonce ct = Raise StructError.
Proof.
  intros Hct. unfold build_payload. rewrite struct_pack_be32_range by lia. done.
Qed.

(** The framing does not depend on the encryption library. *)
Lemma build_payload_unframe nonce ct :
  length nonce = 12 → (Z.of_nat (length ct) < 2 ^ 32)%Z →
  ∃ payload,
    build_payload nonce ct = Ok payload
    ∧ length payload = 16 + length ct
    ∧ unframe payload = Ok (nonce, Z.of_nat (length ct), ct).
Proof. exact (unframe_build_payload (H:=test_crypto) nonce ct). Qed.

(** X5.  The reader's framing undoes the writer's: for every nonce of 12
    bytes and every ciphertext shorter than 2^32 bytes, the payload that
    [encrypt_and_embed] builds has [16 + length ct] bytes, and cutting it
    the way [extractAndDecryptPng] does gives back the nonce, the length of
    the ciphertext and the ciphertext. *)
Theorem frame_unframe_roundtrip (nonce ct : list Z) :
  length nonce = 12 → (Z.of_nat (length ct) < 2 ^ 32)%Z →
  ∃ payload,
    build_payload nonce ct = Ok payload
    ∧ length payload = 16 + length ct
    ∧ getUint32_be payload 12 = Ok (Z.of_nat (length ct))
    ∧ unframe payload = Ok (nonce, Z.of_nat (length ct), ct).
Proof.
  intros Hnonce Hct.
  destruct (build_payload_unframe nonce ct Hnonce Hct) as (payload & Hb & Hl & Hu).
  exists payload. split; [done|]. split; [done|]. split; [|done].
  destruct (unframe_long payload) as (ctLen & Hfield & Hu'); [lia|].
  rewrite Hu in Hu'. by injection Hu' as _ <- _.
Qed.

Lemma frame_unframe_roundtrip_witness :
  ∃ payload,
    build_payload (replicate 12 5%Z) [9; 8; 7]%Z = Ok payload
    ∧ unframe payload = Ok (replicate 12 5%Z, 3%Z, [9; 8; 7]%Z).
Proof.
  destruct (frame_unframe_roundtrip (replicate 12 5%Z) [9; 8; 7]%Z)
    as (payload & Hb & _ & _ & Hu).
  - reflexivity.
  - simpl. lia.
  - exists payload. split; assumption.
Defined.

(** X6.  What the writer encrypts is what the reader decrypts: when the
    key is accepted, the library returns a nonce and a ciphertext made of
    bytes, and the envelope fits the carrier, [extractAndDecryptPng], run
    on the saved image with the length that [encrypt_and_embed] returned,
    calls AES-GCM decryption with exactly the nonce and the ciphertext of
    the encryption, under whatever key the reader was given. *)
Theorem writer_reader_handoff `{PyCrypto} `{WebCrypto}
    (plaintext : string) (key : list Z) (img : image) (c : aesgcm) (ct : list Z) :
  AESGCM key = Ok c →
  AESGCM_encrypt c (os_urandom 12) (utf8_encode plaintext) = Ok ct →
  Forall is_byte (os_urandom 12) → Forall is_byte ct →
  (Z.of_nat (length ct) < 2 ^ 32)%Z →
  wf_image img →
  8 * (16 + length ct) ≤ img_width img * img_height img * 3 →
  ∃ saved,
    encrypt_and_embed plaintext key img = Ok (16 + length ct, saved)
    ∧ ∀ key',
        extractAndDecryptPng key' (getImageData saved) (16 + length ct)
        = aesGcmDecrypt (os_urandom 12) ct key'.
Proof.
  intros Hkey Henc Hnb Hcb Hct Hwf Hcap.
  destruct (build_payload_ok (os_urandom 12) ct Hct) as (b0 & b1 & b2 & b3 & Hb & Hbuild).
  set (payload := os_urandom 12 ++ [b0; b1; b2; b3] ++ ct) in *.
  assert (length payload = 16 + length ct) as Hl.
  { unfold payload. rewrite !length_app, os_urandom_length. simpl. lia. }
  assert (Forall is_byte payload) as Hpb
    by (unfold payload; rewrite !Forall_app; done).
  destruct (embed_extract_bytes img payload) as (saved & Hemb & Hext);
    [done|done|lia|].
  exists saved. split.
  - unfold encrypt_and_embed, aes_gcm_encrypt.
    rewrite Hkey. cbn [mbind result_bind Ok mret result_ret].
    rewrite Henc. cbn [mbind result_bind Ok mret result_ret].
    rewrite Hbuild. cbn [mbind result_bind Ok mret result_ret].
    rewrite Hemb. cbn [fst mbind result_bind Ok mret result_ret].
    by rewrite Hl.
  - intros key'. unfold extractAndDecryptPng.
    rewrite <- Hl, Hext. cbn [mbind result_bind Ok].
    destruct (build_payload_unframe (os_urandom 12) ct) as (payload' & Hb' & _ & Hu);
      [apply os_urandom_length|done|].
    rewrite Hbuild in Hb'. injection Hb' as <-. by rewrite Hu.
Qed.

Lemma writer_reader_handoff_witness :
  ∃ saved,
    encrypt_and_embed "hi" (replicate 16 7%Z)
      (Image 10 10 (replicate 100 (0, 0, 0)%Z)) = Ok (34, saved)
    ∧ extractAndDecryptPng (replicate 16 7%Z) (getImageData saved) 34 = Ok "hi".
Proof.
  destruct (writer_reader_handoff (H:=test_crypto) (H0:=test_webcrypto)
              "hi" (replicate 16 7%Z) (Image 10 10 (replicate 100 (0, 0, 0)%Z))
              (replicate 16 7%Z) ([104; 105]%Z ++ test_tag))
    as (saved & Hrun & Hread).
  - reflexivity.
  - reflexivity.
  - simpl. solve_bits.
  - unfold test_tag. simpl. solve_bits.
  - simpl. lia.
  - reflexivity.
  - simpl. lia.
  - exists saved. split; [exact Hrun|]. rewrite Hread. reflexivity.
Defined.

(** X7.  What [encrypt_and_embed] needs from the carrier: with an accepted
    key, a successful encryption and a well-formed carrier, the call
    succeeds exactly when [8 * (16 + length ct)] bits fit in
    [width * height * 3]; when they do not, it raises the capacity error
    with these two numbers, and when the ciphertext has 2^32 bytes or more
    it raises the range error of [struct.pack] whatever the carrier is. *)
Theorem encrypt_and_embed_capacity `{PyCrypto}
    (plaintext : string) (key : list Z) (img : image) (c : aesgcm) (ct : list Z) :
  AESGCM key = Ok c →
  AESGCM_encrypt c (os_urandom 12) (utf8_encode plaintext) = Ok ct →
  wf_image img →
  ((2 ^ 32 ≤ Z.of_nat (length ct))%Z →
     encrypt_and_embed plaintext key img = Raise StructError)
  ∧ ((Z.of_nat (length ct) < 2 ^ 32)%Z →
       ((∃ r, encrypt_and_embed plaintext key img = Ok r)
          ↔ 8 * (16 + length ct) ≤ img_width img * img_height img * 3)
       ∧ (img_width img * img_height img * 3 < 8 * (16 + length ct) →
            encrypt_and_embed plaintext key img
            = Raise (DataTooLarge (8 * (16 + length ct))
                       (img_width img * img_height img * 3)))).
Proof.
  intros Hkey Henc Hwf.
  assert (encrypt_and_embed plaintext key img
          = (payload ← build_payload (os_urandom 12) ct;
             saved ← (embed_data_in_png img payload).1;
             mret (length payload, saved))) as Hrun.
  { unfold encrypt_and_embed, aes_gcm_encrypt.
    rewrite Hkey. cbn [mbind result_bind Ok mret result_ret].
    rewrite Henc. done. }
  split.
  - intros Hlong. by rewrite Hrun, build_payload_too_long.
  - intros Hct.
    destruct (build_payload_ok (os_urandom 12) ct Hct) as (b0 & b1 & b2 & b3 & Hb & Hbuild).
    rewrite Hrun, Hbuild. cbn [mbind result_bind Ok mret result_ret].
    set (payload := os_urandom 12 ++ [b0; b1; b2; b3] ++ ct).
    assert (length payload = 16 + length ct) as Hl.
    { unfold payload. rewrite !length_app, os_urandom_length. simpl. lia. }
    assert (img_width img * img_height img * 3 < 8 * (16 + length ct) →
            (embed_data_in_png img payload).1
            = Raise (DataTooLarge (8 * (16 + length ct))
                       (img_width img * img_height img * 3))) as Hraise.
    { intros Hcap. unfold embed_data_in_png.
      rewrite embed_bits_too_large; rewrite length_bytes_to_lsb_bits, Hl; done. }
    split; [split|].
    + intros [r Hr].
      destruct (decide (8 * (16 + length ct) ≤ img_width img * img_height img * 3))
        as [|Hno]; [done|].
      rewrite Hraise in Hr by lia. done.
    + intros Hcap. unfold embed_data_in_png.
      rewrite embed_bits_ok; [by eexists|done|].
      rewrite length_bytes_to_lsb_bits, Hl. lia.
    + intros Hcap. by rewrite Hraise.
Qed.

Lemma encrypt_and_embed_capacity_witness :
  encrypt_and_embed "hello world" (replicate 16 7%Z)
    (Image 8 8 (replicate 64 (0, 0, 0)%Z))
  = Raise (DataTooLarge 344 192).
Proof.
  apply (encrypt_and_embed_capacity (H:=test_crypto) "hello world" (replicate 16 7%Z)
           (Image 8 8 (replicate 64 (0, 0, 0)%Z)) (replicate 16 7%Z)
           (text_bytes "hello world" ++ test_tag)).
  - reflexivity.
  - reflexivity.
  - reflexivity.
  - simpl. lia.
  - simpl. lia.
Defined.
End envelope_further.

(** ** Outcomes of reading the mapping registry *)

Section registry_further.
Import app.
Context `{PyStr}.

Lemma not_bad_cases line :
  ¬ bad_length_line line → skipped_line line ∨ ∃ key e, record_line line key e.
Proof. intros Hnb. destruct (line_cases line) as [?|[?|?]]; [by left|by right|done]. Qed.

Lemma mapping_loop_raised rest : ∀ mp e,
  mapping_loop rest mp = Raise e →
  e = InvalidLiteral ∧ ∃ line, line ∈ rest ∧ bad_length_line line.
Proof.
  induction rest as [|l rest IH]; intros mp e Hrun; [done|].
  destruct (line_cases l) as [Hl|[(key & e0 & Hl)|Hl]].
  - rewrite mapping_loop_skip in Hrun by done.
    destruct (IH _ _ Hrun) as (-> & line & Hin & Hbad).
    split; [done|]. exists line. split; [by right|done].
  - rewrite (mapping_loop_record l _ _ key e0) in Hrun by done.
    destruct (IH _ _ Hrun) as (-> & line & Hin & Hbad).
    split; [done|]. exists line. split; [by right|done].
  - rewrite mapping_loop_bad in Hrun by done. injection Hrun as <-.
    split; [done|]. exists l. split; [by left|done].
Qed.

(** What the lines of the file decide, once they are read. *)
Lemma read_article_mapping_lines (lines : list string) :
  (lines = [] → read_article_mapping lines = Raise EmptyMappingFile)
  ∧ ((∃ mp, read_article_mapping lines = Ok mp)
       ↔ lines ≠ [] ∧ ∀ line, line ∈ tail lines → ¬ bad_length_line line)
  ∧ (∀ e, read_article_mapping lines = Raise e →
       (e = EmptyMappingFile ∧ lines = [])
       ∨ (e = InvalidLiteral ∧ ∃ line, line ∈ tail lines ∧ bad_length_line line)).
Proof.
  split; [by intros ->|].
  destruct lines as [|header rest]; cbn [read_article_mapping tail].
  { split.
    - split; [by intros [mp ?]|by intros [? _]].
    - intros e He. left. by injection He as <-. }
  destruct (mapping_loop rest ∅) as [e|mp] eqn:Hrun.
  - destruct (mapping_loop_raised rest ∅ e Hrun) as (-> & line & Hin & Hbad).
    split.
    + split; [by intros [mp ?]|]. intros [_ Hno]. by destruct (Hno line).
    + intros e He. right. injection He as <-. split; [done|]. by exists line.
  - split.
    + split; [|by eexists]. intros _. split; [done|].
      intros line Hin Hbad.
      rewrite mapping_loop_raises in Hrun by (by exists line). done.
    + by intros e He.
Qed.

(** X8.  When [read_article_mapping] succeeds and when it fails.  An
    exception of [open] or of reading the lines leaves the function as it
    is, before anything is parsed.  Once the lines are read, an empty file
    raises the empty-file error; a file with a line after the header whose
    four fields end in a field that [int] rejects raises the error of
    [int]; every other file gives a mapping.  No other exception comes out
    of the function, in particular none from unpacking the fields. *)
Theorem read_article_mapping_outcome {FileError : Type}
    (open_readlines : string → FileError + list string) (mapping_file : string) :
  match app_file.read_article_mapping open_readlines mapping_file with
  | inl err => open_readlines mapping_file = inl err
  | inr (inl e) =>
      ∃ lines,
        open_readlines mapping_file = inr lines
        ∧ ((e = EmptyMappingFile ∧ lines = [])
           ∨ (e = InvalidLiteral
              ∧ ∃ line, line ∈ tail lines ∧ bad_length_line line))
  | inr (inr mp) =>
      ∃ lines,
        open_readlines mapping_file = inr lines
        ∧ read_article_mapping lines = Ok mp
        ∧ lines ≠ [] ∧ ∀ line, line ∈ tail lines → ¬ bad_length_line line
  end
  ∧ (∀ err, open_readlines mapping_file = inl err →
       app_file.read_article_mapping open_readlines mapping_file = inl err)
  ∧ (∀ lines, open_readlines mapping_file = inr lines →
       (lines = [] →
          app_file.read_article_mapping open_readlines mapping_file
          = inr (Raise EmptyMappingFile))
       ∧ ((∃ line, line ∈ tail lines ∧ bad_length_line line) →
            app_file.read_article_mapping open_readlines mapping_file
            = inr (Raise InvalidLiteral))
       ∧ (lines ≠ [] → (∀ line, line ∈ tail lines → ¬ bad_length_line line) →
            ∃ mp, app_file.read_article_mapping open_readlines mapping_file
                  = inr (Ok mp))).
Proof.
  unfold app_file.read_article_mapping.
  destruct (open_readlines mapping_file) as [err|lines] eqn:Hopen.
  { split; [done|]. split; [by intros err' [= <-]|by intros lines]. }
  destruct (read_article_mapping_lines lines) as (Hempty & Hok & Hraise).
  split; [|split; [by intros err|]].
  - destruct (read_article_mapping lines) as [e|mp] eqn:Hrun.
    + exists lines. split; [done|]. by apply Hraise.
    + exists lines. split; [done|]. split; [done|]. apply Hok. by exists mp.
  - intros lines' [= <-]. split; [|split].
    + intros Hl. by rewrite Hempty.
    + intros (line & Hin & Hbad).
      destruct lines as [|header rest]; [by apply elem_of_nil in Hin|].
      cbn [tail] in Hin. cbn [read_article_mapping].
      rewrite mapping_loop_raises by (by exists line). done.
    + intros Hne Hno. destruct (proj2 Hok (conj Hne Hno)) as [mp ->].
      by exists mp.
Qed.

Lemma mapping_loop_last rest : ∀ mp0 mp key e,
  mapping_loop rest mp0 = Ok mp →
  mp !! key = Some e
  ↔ (∃ pre line post,
       rest = pre ++ line :: post ∧ record_line line key e
       ∧ ∀ l e', l ∈ post → ¬ record_line l key e')
    ∨ (mp0 !! key = Some e ∧ ∀ l e', l ∈ rest → ¬ record_line l key e').
Proof.
  induction rest as [|l rest IH]; intros mp0 mp key e Hrun.
  - injection Hrun as <-. split.
    + intros Hmp. right. split; [done|]. intros l e' Hin. by apply elem_of_nil in Hin.
    + intros [(pre & line & post & Heq & _)|[Hmp _]]; [|done].
      by destruct pre.
  - destruct (line_cases l) as [Hl|[(key0 & e0 & Hl)|Hl]].
    + rewrite mapping_loop_skip in Hrun by done. rewrite (IH _ _ _ _ Hrun). split.
      * intros [(pre & line & post & -> & Hrec & Hlast)|[Hmp Hnone]].
        -- left. by exists (l :: pre), line, post.
        -- right. split; [done|]. intros l' e' Hin Hrec.
           apply elem_of_cons in Hin as [->|Hin].
           ++ by destruct (skipped_not_record l key e').
           ++ by destruct (Hnone l' e').
      * intros [(pre & line & post & Heq & Hrec & Hlast)|[Hmp Hnone]].
        -- destruct pre as [|l' pre]; injection Heq as <- ->.
           ++ by destruct (skipped_not_record l key e).
           ++ left. by exists pre, line, post.
        -- right. split; [done|]. intros l' e' Hin. apply Hnone. by right.
    + rewrite (mapping_loop_record l _ _ key0 e0) in Hrun by done.
      rewrite (IH _ _ _ _ Hrun). split.
      * intros [(pre & line & post & -> & Hrec & Hlast)|[Hmp Hnone]].
        -- left. by exists (l :: pre), line, post.
        -- destruct (decide (key0 = key)) as [->|Hne].
           ++ rewrite lookup_insert_eq in Hmp. injection Hmp as <-.
              left. by exists [], l, rest.
           ++ rewrite lookup_insert_ne in Hmp by done.
              right. split; [done|]. intros l' e' Hin Hrec.
              apply elem_of_cons in Hin as [->|Hin].
              ** by destruct (record_line_functional l key0 e0 key e').
              ** by destruct (Hnone l' e').
      * intros [(pre & line & post & Heq & Hrec & Hlast)|[Hmp Hnone]].
        -- destruct pre as [|l' pre]; injection Heq as <- ->.
           ++ destruct (record_line_functional l key0 e0 key e) as [-> ->]; [done..|].
              right. by rewrite lookup_insert_eq.
           ++ left. by exists pre, line, post.
        -- destruct (decide (key0 = key)) as [->|Hne].
           ++ destruct (Hnone l e0); [by left|done].
           ++ right. rewrite lookup_insert_ne by done. split; [done|].
              intros l' e' Hin. apply Hnone. by right.
    + by rewrite mapping_loop_bad in Hrun.
Qed.

(** X9.  The last record of an article wins: when the file is read, the
    mapping holds under a key the entry of the last line after the header
    that is a record for this key, and holds nothing under a key that no
    line is a record for.  Earlier records for the same key are replaced
    without a trace and without an error. *)
Theorem mapping_last_record_wins (header : string) (rest : list string)
    (mp : gmap string entry) (key : string) (e : entry) :
  read_article_mapping (header :: rest) = Ok mp →
  mp !! key = Some e
  ↔ ∃ pre line post,
      rest = pre ++ line :: post ∧ record_line line key e
      ∧ ∀ l e', l ∈ post → ¬ record_line l key e'.
Proof.
  intros Hrun. cbn [read_article_mapping] in Hrun.
  rewrite (mapping_loop_last _ _ _ key e Hrun). split.
  - intros [?|[Hmp _]]; [done|]. by rewrite lookup_empty in Hmp.
  - intros ?. by left.
Qed.
End registry_further.

Section registry_further_examples.
Import app.

Lemma mapping_last_record_wins_witness :
  ∃ mp,
    read_article_mapping
      [header_line;
       nl (cat_tab ["a.txt"; "enc/old.png"; "S0VZ"; "43"]);
       nl (cat_tab ["a.txt"; "enc/new.png"; "S0VZ"; "59"])]
    = Ok mp
    ∧ mp !! "a" = Some (Entry "a" "enc/new.png" "S0VZ" 59).
Proof.
  assert (read_article_mapping
            [header_line;
             nl (cat_tab ["a.txt"; "enc/old.png"; "S0VZ"; "43"]);
             nl (cat_tab ["a.txt"; "enc/new.png"; "S0VZ"; "59"])]
          = Ok {[ "a" := Entry "a" "enc/new.png" "S0VZ" 59 ]}) as Hrun
    by (vm_compute; reflexivity).
  eexists. split; [exact Hrun|].
  apply (mapping_last_record_wins (H:=ascii_str) _ _ _ _ _ Hrun).
  exists [nl (cat_tab ["a.txt"; "enc/old.png"; "S0VZ"; "43"])],
         (nl (cat_tab ["a.txt"; "enc/new.png"; "S0VZ"; "59"])), [].
  split; [reflexivity|]. split.
  - split; [vm_compute; discriminate|].
    eexists _, _, _, _, _. repeat split; vm_compute; reflexivity.
  - intros l e' Hin. by apply elem_of_nil in Hin.
Defined.

Lemma read_article_mapping_outcome_witness :
  ∃ mp,
    app_file.read_article_mapping (H:=ascii_str) example_open "key_mapping.txt"
    = inr (Ok mp).
Proof.
  apply (proj2 (proj2 (proj2 (proj2
           (read_article_mapping_outcome (H:=ascii_str) example_open
              "key_mapping.txt")) example_mapping eq_refl))).
  - discriminate.
  - cbn [tail example_mapping]. intros line Hin [_ (a & p & k & n & Hf & Hi)].
    apply list_elem_of_singleton in Hin as ->.
    assert (fields (H:=ascii_str)
              (nl (cat_tab ["a-1.txt"; "enc/a-1.png"; "S0VZ"; "43"]))
            = ["a-1.txt"; "enc/a-1.png"; "S0VZ"; "43"]) as Hc
      by (vm_compute; reflexivity).
    rewrite Hc in Hf. injection Hf as <- <- <- <-. vm_compute in Hi. discriminate.
Defined.

(** A file that is missing: the exception of [open] is what comes out. *)
Example read_article_mapping_missing_file :
  app_file.read_article_mapping (H:=ascii_str) example_open "nowhere.txt"
  = inl "FileNotFoundError".
Proof. reflexivity. Qed.
End registry_further_examples.


(** * The request filter and the pages *)

Section text_lemmas.

Lemma chars_text l : chars (text l) = l.
Proof. apply String.list_ascii_of_string_of_list_ascii. Qed.

Lemma text_chars s : text (chars s) = s.
Proof. apply String.string_of_list_ascii_of_string. Qed.

Lemma chars_inj s1 s2 : chars s1 = chars s2 → s1 = s2.
Proof. intros Heq. by rewrite <- (text_chars s1), Heq, text_chars. Qed.

Lemma chars_append s1 s2 : chars (String.append s1 s2) = chars s1 ++ chars s2.
Proof.
  induction s1 as [|c s1 IH]; [done|].
  change (c :: chars (String.append s1 s2) = c :: chars s1 ++ chars s2).
  by rewrite IH.
Qed.

Lemma starts_with_spec p s : starts_with p s = true ↔ ∃ b, s = p ++ b.
Proof.
  revert s. induction p as [|c p IH]; intros s.
  - split; [by exists s|done].
  - destruct s as [|d s]; cbn.
    + split; [done|]. by intros [b ?].
    + rewrite andb_true_iff, bool_decide_eq_true, IH. split.
      * intros [-> [b ->]]. by exists b.
      * intros [b Hb]. injection Hb as -> ->. split; [done|by exists b].
Qed.

Lemma str_in_spec p s : str_in p s = true ↔ ∃ a b, s = a ++ p ++ b.
Proof.
  induction s as [|d s IH]; cbn [str_in]; rewrite orb_true_iff, starts_with_spec.
  - split.
    + intros [[b Hb]|]; [|done]. by exists [], b.
    + intros (a & b & Hab). left.
      destruct a; [by exists b|done].
  - rewrite IH. split.
    + intros [[b Hb]|(a & b & ->)]; [by exists [], b|by exists (d :: a), b].
    + intros (a & b & Hab). destruct a as [|d' a].
      * left. by exists b.
      * right. injection Hab as -> ->. by exists a, b.
Qed.

Lemma str_in_trans p q s :
  str_in p q = true → str_in q s = true → str_in p s = true.
Proof.
  rewrite !str_in_spec. intros (a & b & ->) (a' & b' & ->).
  exists (a' ++ a), (b ++ b'). by rewrite <- !app_assoc.
Qed.
End text_lemmas.

(** Membership in a list that is written out. *)
Ltac in_list := apply list_elem_of_In; cbn [In]; tauto.

Section request_filter.
Import routes.

Lemma match_python_requests_python s :
  match_python_requests s = true → str_in (chars "python") s = true.
Proof.
  unfold match_python_requests. intros [Hp _]%andb_true_iff.
  apply starts_with_spec in Hp as [b ->]. apply str_in_spec.
  by exists [], (chars "-requests/" ++ b).
Qed.

Lemma reject_ai_crawler_shape user_agent :
  reject_ai_crawler user_agent = (true, DeniedBody, 403)
  ∨ reject_ai_crawler user_agent = (false, NoBody, 200).
Proof. unfold reject_ai_crawler. cbv zeta. destruct (_ || _); auto. Qed.

(** X10.  The verdict of the request filter: a request is refused (403)
    exactly when its User-Agent, put in lower case, contains one of twelve
    words, and is let through (200) otherwise, a request without the
    header included.  The four keywords that contain another keyword
    ("chatgpt", "bingbot", "googlebot", "baiduspider") and the regular
    expression for python-requests never decide. *)
Theorem reject_ai_crawler_verdict (user_agent : option string) :
  ((reject_ai_crawler user_agent).1.1 = true
     ↔ ∃ k, k ∈ ["bot"; "crawler"; "spider"; "curl"; "wget"; "python"; "requests";
                 "scrapy"; "playwright"; "puppeteer"; "gpt"; "claude"]
            ∧ ∃ a b, chars (str_lower (default EmptyString user_agent))
                     = a ++ chars k ++ b)
  ∧ (reject_ai_crawler user_agent = (true, DeniedBody, 403)
     ∨ reject_ai_crawler user_agent = (false, NoBody, 200))
  ∧ reject_ai_crawler None = (false, NoBody, 200).
Proof.
  split; [|split; [|reflexivity]].
  - unfold reject_ai_crawler. cbv zeta.
    set (ua := chars (str_lower (default EmptyString user_agent))).
    assert (existsb (λ k, str_in (chars k) ua) AI_KEYWORDS
            || match_python_requests ua = true
            ↔ ∃ k, k ∈ ["bot"; "crawler"; "spider"; "curl"; "wget"; "python";
                        "requests"; "scrapy"; "playwright"; "puppeteer"; "gpt";
                        "claude"]
                   ∧ str_in (chars k) ua = true) as Hiff.
    { rewrite orb_true_iff, existsb_exists. split.
      - intros [(k & Hk & Hin)|Hm].
        + unfold AI_KEYWORDS in Hk. cbn [In] in Hk.
          repeat (destruct Hk as [<-|Hk];
                  [first
                     [ eexists; split; [|exact Hin]; in_list
                     | exists "gpt"; split; [in_list|];
                       by apply (str_in_trans _ (chars "chatgpt"))
                     | exists "bot"; split; [in_list|];
                       first [by apply (str_in_trans _ (chars "bingbot"))
                             |by apply (str_in_trans _ (chars "googlebot"))]
                     | exists "spider"; split; [in_list|];
                       by apply (str_in_trans _ (chars "baiduspider")) ]|]).
          done.
        + exists "python". split; [in_list|].
          by apply match_python_requests_python.
      - intros (k & Hk & Hin). left. exists k. split; [|done].
        apply list_elem_of_In in Hk. unfold AI_KEYWORDS. cbn [In] in *. tauto. }
    destruct (existsb _ _ || _) eqn:Hv; cbn [fst].
    + split; [|done]. intros _. destruct (proj1 Hiff eq_refl) as (k & Hk & Hin).
      exists k. split; [done|]. by apply str_in_spec.
    + split; [done|]. intros (k & Hk & Hin%str_in_spec).
      apply (proj2 Hiff). by exists k.
  - apply reject_ai_crawler_shape.
Qed.
End request_filter.

Section page_theorems.
Import app routes.
Context `{PyStr}.
Variables (files : string → option (list Z)) (mapping_lines : list string)
          (INPUT_PNG : string) (b64encode : list Z → string).

Local Abbreviation article_page := (article_page files mapping_lines INPUT_PNG b64encode).
Local Abbreviation index_page := (index_page files mapping_lines INPUT_PNG b64encode).
Local Abbreviation img_to_base64 := (img_to_base64 files b64encode).

Lemma safe_title_safe s : Forall (λ c, safe_char c = true) (chars (safe_title s)).
Proof.
  unfold safe_title. rewrite chars_text. apply Forall_forall. intros c Hc.
  by apply list_elem_of_In, filter_In in Hc as [_ Hc].
Qed.

Lemma filter_all_true {A} (f : A → bool) l :
  Forall (λ x, f x = true) l → List.filter f l = l.
Proof.
  induction 1 as [|x l Hx _ IH]; [done|]. cbn. by rewrite Hx, IH.
Qed.

Lemma safe_title_fixed s :
  safe_title s = s ↔ Forall (λ c, safe_char c = true) (chars s).
Proof.
  split.
  - intros Heq. rewrite <- Heq at 1. apply safe_title_safe.
  - intros Hs. unfold safe_title. by rewrite filter_all_true, text_chars.
Qed.

Lemma safe_title_idem s : safe_title (safe_title s) = safe_title s.
Proof. apply safe_title_fixed, safe_title_safe. Qed.

Lemma article_page_cases user_agent article_id :
  (reject_ai_crawler user_agent).1.1 = false →
  ∀ mapping, read_article_mapping mapping_lines = Ok mapping →
  match mapping !! safe_title article_id with
  | None =>
      article_page user_agent article_id
      = inr (NotFoundBody (safe_title article_id), 404)
  | Some art =>
      ∀ base img,
        img_to_base64 INPUT_PNG = inr base →
        img_to_base64 (img_path art) = inr img →
        article_page user_agent article_id
        = inr (ArticleBody (safe_title article_id) (aes_key_b64 art)
                 (payload_len art) img base, 200)
  end.
Proof.
  intros Hua mapping Hread. unfold routes.article_page, load_mapping.
  destruct (reject_ai_crawler user_agent) as [[blocked html] code].
  cbn [fst] in Hua. subst blocked. rewrite Hread. unfold Ok.
  destruct (mapping !! safe_title article_id) as [art|]; [|done].
  intros base img Hbase Himg. fold img_to_base64. by rewrite Hbase, Himg.
Qed.

Lemma article_page_inv user_agent article_id b code :
  article_page user_agent article_id = inr (b, code) →
  (b = DeniedBody ∧ code = 403 ∧ (reject_ai_crawler user_agent).1.1 = true)
  ∨ ((reject_ai_crawler user_agent).1.1 = false
     ∧ ∃ mapping, read_article_mapping mapping_lines = Ok mapping
       ∧ ((mapping !! safe_title article_id = None
           ∧ b = NotFoundBody (safe_title article_id) ∧ code = 404)
          ∨ ∃ art base img,
              mapping !! safe_title article_id = Some art
              ∧ img_to_base64 INPUT_PNG = inr base
              ∧ img_to_base64 (img_path art) = inr img
              ∧ b = ArticleBody (safe_title article_id) (aes_key_b64 art)
                      (payload_len art) img base
              ∧ code = 200)).
Proof.
  unfold routes.article_page, load_mapping.
  destruct (reject_ai_crawler_shape user_agent) as [Hv|Hv];
    rewrite Hv; cbn [fst].
  { intros [= <- <-]. by left. }
  intros Hrun. right. split; [done|].
  destruct (read_article_mapping mapping_lines) as [e|mapping]; [done|].
  exists mapping. split; [done|].
  destruct (mapping !! safe_title article_id) as [art|].
  - right. fold img_to_base64 in Hrun.
    destruct (img_to_base64 INPUT_PNG) as [f|base] eqn:Hbase; [done|].
    destruct (img_to_base64 (img_path art)) as [f|img] eqn:Himg; [done|].
    injection Hrun as <- <-. by exists art, base, img.
  - left. by injection Hrun as <- <-.
Qed.

(** X11.  [article_page] works on the sanitised id only: the id shown in
    the 404 page and in the article page is [safe_title article_id], made
    of letters, digits, underscores and hyphens and nothing else, and the
    article served is the entry stored under that sanitised id.  An entry
    stored under a key with any other character (a space or a dot in the
    file name) is therefore never served, whatever id is requested. *)
Theorem article_page_sanitised (user_agent : option string) (article_id : string) :
  (∀ b code, article_page user_agent article_id = inr (b, code) →
     match b with
     | DeniedBody => code = 403
     | NotFoundBody x =>
         code = 404 ∧ x = safe_title article_id
         ∧ Forall (λ c, safe_char c = true) (chars x)
     | ArticleBody x k n img base =>
         code = 200 ∧ x = safe_title article_id
         ∧ Forall (λ c, safe_char c = true) (chars x)
         ∧ ∃ mapping art,
             read_article_mapping mapping_lines = Ok mapping
             ∧ mapping !! x = Some art
             ∧ k = aes_key_b64 art ∧ n = payload_len art
             ∧ img_to_base64 (img_path art) = inr img
     | _ => False
     end)
  ∧ (∀ key x k n img base code,
       safe_title key ≠ key →
       article_page user_agent article_id = inr (ArticleBody x k n img base, code) →
       x ≠ key).
Proof.
  split.
  - intros b code Hrun.
    destruct (article_page_inv _ _ _ _ Hrun)
      as [(-> & -> & _)|(_ & mapping & Hread & [(_ & -> & ->)|Hart])]; [done| |].
    + split; [done|]. split; [done|]. apply safe_title_safe.
    + destruct Hart as (art & base & img & Hart & _ & Himg & -> & ->).
      split; [done|]. split; [done|]. split; [apply safe_title_safe|].
      by exists mapping, art.
  - intros key x k n img base code Hkey Hrun ->.
    destruct (article_page_inv _ _ _ _ Hrun)
      as [(? & _)|(_ & mapping & _ & [(_ & ? & _)|Hart])]; [done..|].
    destruct Hart as (art & base' & img' & _ & _ & _ & Hb & _).
    injection Hb as -> _ _ _ _. by rewrite safe_title_idem in Hkey.
Qed.

Lemma sorted_keys_elem (mapping : gmap string entry) key :
  key ∈ sorted_keys mapping ↔ is_Some (mapping !! key).
Proof.
  unfold sorted_keys. rewrite merge_sort_Permutation, list_elem_of_fmap. split.
  - intros ([k e] & -> & Hin%elem_of_map_to_list). by exists e.
  - intros [e He]. exists (key, e). split; [done|]. by apply elem_of_map_to_list.
Qed.

(** X12.  The index page lists every article of the mapping once, in the
    order of the keys, under its sanitised name; and a link whose key has
    safe characters only opens that article: [article_page] on it answers
    200 with the key, the length and the image of the entry. *)
Theorem index_page_links (user_agent : option string)
    (base : string) (links : list string) (code : nat) :
  index_page user_agent = inr (IndexBody base links, code) →
  code = 200
  ∧ ∃ mapping,
      read_article_mapping mapping_lines = Ok mapping
      ∧ links = safe_title <$> sorted_keys mapping
      ∧ length links = size mapping
      ∧ StronglySorted String.le (sorted_keys mapping)
      ∧ (∀ key, key ∈ sorted_keys mapping ↔ is_Some (mapping !! key))
      ∧ ∀ key art img,
          mapping !! key = Some art → safe_title key = key →
          img_to_base64 (img_path art) = inr img →
          key ∈ links
          ∧ article_page user_agent key
            = inr (ArticleBody key (aes_key_b64 art) (payload_len art) img base, 200).
Proof.
  unfold routes.index_page, load_mapping. intros Hrun.
  destruct (reject_ai_crawler_shape user_agent) as [Hv|Hv];
    rewrite Hv in Hrun; cbn [fst] in Hrun; [done|].
  destruct (read_article_mapping mapping_lines) as [e|mapping] eqn:Hread; [done|].
  fold img_to_base64 in Hrun.
  destruct (img_to_base64 INPUT_PNG) as [f|base'] eqn:Hbase; [done|].
  injection Hrun as <- <- <-. split; [done|]. exists mapping.
  split; [done|]. split; [done|].
  split.
  { rewrite length_fmap. unfold sorted_keys.
    by rewrite merge_sort_Permutation, length_fmap, length_map_to_list. }
  split; [apply (StronglySorted_merge_sort _)|].
  split; [apply sorted_keys_elem|].
  intros key art img Hart Hsafe Himg. split.
  - apply list_elem_of_fmap. exists key. split; [done|].
    apply sorted_keys_elem. by exists art.
  - pose proof (article_page_cases user_agent key) as Hpage.
    rewrite Hv in Hpage. specialize (Hpage eq_refl mapping Hread).
    rewrite Hsafe, Hart in Hpage. by apply Hpage.
Qed.
End page_theorems.

Section page_examples.
Import app routes.

Lemma index_page_links_witness :
  article_page (H:=ascii_str) example_files example_mapping "base.png" example_b64
    (Some "Mozilla/5.0") "a-1"
  = inr (ArticleBody "a-1" "S0VZ" 43 "data:image/png;base64,Ag=="
           "data:image/png;base64,AQ==", 200).
Proof.
  refine (proj2 (_ : "a-1" ∈ ["a-1"] ∧ _)).
  destruct (index_page_links (H:=ascii_str) example_files example_mapping "base.png"
              example_b64 (Some "Mozilla/5.0") "data:image/png;base64,AQ==" ["a-1"] 200)
    as (_ & mapping & Hread & _ & _ & _ & _ & Hopen).
  - vm_compute. reflexivity.
  - assert (mapping = {[ "a-1" := Entry "a-1" "enc/a-1.png" "S0VZ" 43 ]}) as ->.
    { assert (read_article_mapping (H:=ascii_str) example_mapping
              = Ok {[ "a-1" := Entry "a-1" "enc/a-1.png" "S0VZ" 43 ]}) as Hread'
        by (vm_compute; reflexivity).
      rewrite Hread in Hread'. by injection Hread'. }
    apply (Hopen "a-1" (Entry "a-1" "enc/a-1.png" "S0VZ" 43)
             "data:image/png;base64,Ag=="); reflexivity.
Defined.

Lemma article_page_sanitised_witness :
  article_page (H:=ascii_str) example_files example_mapping "base.png" example_b64
    (Some "Mozilla/5.0") "a-1!.txt"
  = inr (NotFoundBody "a-1txt", 404)
  ∧ "a-1txt" = safe_title "a-1!.txt"
  ∧ Forall (λ c, safe_char c = true) (chars "a-1txt").
Proof.
  assert (article_page (H:=ascii_str) example_files example_mapping "base.png"
            example_b64 (Some "Mozilla/5.0") "a-1!.txt"
          = inr (NotFoundBody "a-1txt", 404)) as Hrun by (vm_compute; reflexivity).
  split; [exact Hrun|].
  exact (proj2 (proj1 (article_page_sanitised (H:=ascii_str) example_files
                         example_mapping "base.png" example_b64
                         (Some "Mozilla/5.0") "a-1!.txt") _ _ Hrun)).
Defined.
End page_examples.


(** * The mapping file from the writer to the reader *)

Section mapping_record_proofs.
Import app encoder_main.

Lemma digit_val_digit_char d : d < 10 → digit_val (digit_char d) = Some (Z.of_nat d).
Proof.
  intros Hd. do 10 (destruct d as [|d]; [reflexivity|]). lia.
Qed.

Lemma digit_char_props d :
  d < 10 →
  py_isspace (digit_char d) = false ∧ digit_char d ≠ "-"%char
  ∧ digit_char d ≠ "+"%char.
Proof.
  intros Hd. do 10 (destruct d as [|d]; [by repeat split|]). lia.
Qed.

Lemma nat_digits_digits fuel : ∀ n acc,
  Forall (λ c, ∃ d, d < 10 ∧ c = digit_char d) acc →
  Forall (λ c, ∃ d, d < 10 ∧ c = digit_char d) (nat_digits fuel n acc).
Proof.
  induction fuel as [|fuel IH]; intros n acc Hacc; [done|]. cbn [nat_digits].
  assert (Forall (λ c, ∃ d, d < 10 ∧ c = digit_char d)
            (digit_char (n mod 10) :: acc)) as Hacc'.
  { constructor; [|done]. exists (n mod 10). split; [|done].
    apply Nat.mod_upper_bound. lia. }
  destruct (n / 10 =? 0); [done|]. by apply IH.
Qed.

Lemma nat_digits_acc fuel : ∀ n acc, acc ≠ [] → nat_digits fuel n acc ≠ [].
Proof.
  induction fuel as [|fuel IH]; intros n acc Hacc; [done|]. cbn [nat_digits].
  destruct (n / 10 =? 0); [done|]. by apply IH.
Qed.

Lemma nat_digits_nonempty fuel n acc : nat_digits (S fuel) n acc ≠ [].
Proof.
  cbn [nat_digits]. destruct (n / 10 =? 0); [done|]. by apply nat_digits_acc.
Qed.

Lemma digits_val_nat_digits fuel : ∀ n acc,
  n < fuel →
  ∃ k : nat, ∀ a f,
    digits_val a f (nat_digits fuel n acc)
    = digits_val (a * 10 ^ Z.of_nat k + Z.of_nat n) true acc.
Proof.
  induction fuel as [|fuel IH]; intros n acc Hn; [lia|]. cbn [nat_digits].
  pose proof (Nat.div_mod_eq n 10) as Hdm.
  pose proof (Nat.mod_upper_bound n 10) as Hm.
  destruct (Nat.eqb_spec (n / 10) 0) as [Hz|Hnz].
  - exists 1. intros a f. cbn [digits_val].
    rewrite digit_val_digit_char by lia. f_equal.
    change (10 ^ Z.of_nat 1)%Z with 10%Z. lia.
  - destruct (IH (n / 10) (digit_char (n mod 10) :: acc)) as [k Hk]; [lia|].
    exists (S k). intros a f. rewrite Hk. cbn [digits_val].
    rewrite digit_val_digit_char by lia. f_equal.
    rewrite Nat2Z.inj_succ, Z.pow_succ_r by lia.
    generalize (10 ^ Z.of_nat k)%Z. intros P. nia.
Qed.

Lemma lstrip_keep c l : py_isspace c = false → lstrip (c :: l) = c :: l.
Proof. intros Hc. cbn [lstrip]. by rewrite Hc. Qed.

Lemma strip_keep l c l1 l2 c' :
  l = c :: l1 → l = l2 ++ [c'] →
  py_isspace c = false → py_isspace c' = false →
  strip (text l) = text l.
Proof.
  intros H1 H2 Hc Hc'. unfold strip. fold (chars (text l)). rewrite chars_text.
  rewrite H1, lstrip_keep by done. rewrite <- H1, H2, rev_unit, lstrip_keep by done.
  fold (text (rev (c' :: rev l2))). f_equal.
  change (c' :: rev l2) with ([c'] ++ rev l2).
  by rewrite rev_app_distr, rev_involutive.
Qed.

Lemma strip_newline l c l1 l2 c' :
  l = c :: l1 → l = l2 ++ [c'] →
  py_isspace c = false → py_isspace c' = false →
  strip (text (l ++ [newline])) = text l.
Proof.
  intros H1 H2 Hc Hc'. unfold strip. fold (chars (text (l ++ [newline]))).
  rewrite chars_text. rewrite H1. change ((c :: l1) ++ [newline])
    with (c :: (l1 ++ [newline])). rewrite lstrip_keep by done.
  change (c :: (l1 ++ [newline])) with ((c :: l1) ++ [newline]).
  rewrite <- H1, rev_unit. change (lstrip (newline :: rev l)) with (lstrip (rev l)).
  rewrite H2, rev_unit, lstrip_keep by done.
  fold (text (rev (c' :: rev l2))). f_equal.
  change (c' :: rev l2) with ([c'] ++ rev l2).
  by rewrite rev_app_distr, rev_involutive.
Qed.

Lemma split_go_field f : ∀ cur rest,
  tab ∉ f →
  split_go tab cur (f ++ tab :: rest) = text (rev cur ++ f) :: split_go tab [] rest.
Proof.
  induction f as [|c f IH]; intros cur rest Hf.
  - cbn [app split_go]. destruct (decide (tab = tab)); [|done].
    by rewrite app_nil_r.
  - apply not_elem_of_cons in Hf as [Hc Hf]. cbn [app split_go].
    destruct (decide (c = tab)) as [->|_]; [done|].
    rewrite IH by done. cbn [rev]. by rewrite <- app_assoc.
Qed.

Lemma split_go_last f : ∀ cur,
  tab ∉ f → split_go tab cur f = [text (rev cur ++ f)].
Proof.
  induction f as [|c f IH]; intros cur Hf.
  - cbn [split_go]. by rewrite app_nil_r.
  - apply not_elem_of_cons in Hf as [Hc Hf]. cbn [split_go].
    destruct (decide (c = tab)) as [->|_]; [done|].
    rewrite IH by done. cbn [rev]. by rewrite <- app_assoc.
Qed.

Lemma str_of_nat_digits n :
  ∃ c l1 l2 c',
    chars (str_of_nat n) = c :: l1 ∧ chars (str_of_nat n) = l2 ++ [c']
    ∧ py_isspace c = false ∧ py_isspace c' = false
    ∧ c ≠ "-"%char ∧ c ≠ "+"%char ∧ tab ∉ chars (str_of_nat n).
Proof.
  unfold str_of_nat. rewrite chars_text.
  pose proof (nat_digits_nonempty n n []) as Hne.
  pose proof (nat_digits_digits (S n) n [] (Forall_nil_2 _)) as Hall.
  revert Hne Hall. generalize (nat_digits (S n) n []). intros ds Hne Hall.
  destruct (exists_last Hne) as (l2 & c' & Hl2).
  destruct ds as [|c l1]; [done|].
  exists c, l1, l2, c'.
  assert (∀ x, x ∈ c :: l1 → py_isspace x = false ∧ x ≠ "-"%char ∧ x ≠ "+"%char
                               ∧ x ≠ tab) as Hx.
  { intros x Hin. rewrite Forall_forall in Hall.
    destruct (Hall x Hin) as (d & Hd & ->).
    destruct (digit_char_props d Hd) as (Hs & Hm & Hp). repeat split; try done.
    intros Heq. by rewrite Heq in Hs. }
  destruct (Hx c) as (Hs & Hm & Hp & _); [by left|].
  destruct (Hx c') as (Hs' & _); [rewrite Hl2; apply elem_of_app; right; by left|].
  repeat split; try done. intros Hin. by destruct (Hx tab Hin) as (_ & _ & _ & ?).
Qed.

Lemma int_of_str_str_of_nat n : int_of_str (str_of_nat n) = Some (Z.of_nat n).
Proof.
  destruct (str_of_nat_digits n) as (c & l1 & l2 & c' & H1 & H2 & Hc & Hc' & Hm & Hp & _).
  unfold int_of_str. rewrite <- (text_chars (str_of_nat n)).
  rewrite (strip_keep _ c l1 l2 c') by done.
  fold (chars (text (chars (str_of_nat n)))). rewrite chars_text.
  rewrite H1. rewrite !bool_decide_eq_false_2 by done. rewrite <- H1.
  unfold str_of_nat. rewrite chars_text.
  destruct (digits_val_nat_digits (S n) n []) as [k Hk]; [lia|].
  rewrite Hk. cbn [digits_val]. f_equal; lia.
Qed.

Lemma chars_mapping_record t p k n :
  chars (mapping_record t p k n)
  = (chars t ++ tab :: chars p ++ tab :: chars k ++ tab :: chars (str_of_nat n))
    ++ [newline].
Proof.
  unfold mapping_record, nl. cbn [cat_tab]. rewrite !chars_append.
  change (chars (String newline EmptyString)) with [newline]. f_equal.
  change (chars (String tab ?s)) with (tab :: chars s).
  rewrite chars_append.
  change (chars (String tab ?s)) with (tab :: chars s).
  rewrite chars_append.
  by change (chars (String tab ?s)) with (tab :: chars s).
Qed.

Lemma one_field_no_tab s : one_field s → tab ∉ chars s.
Proof.
  intros Hs Hin. unfold one_field in Hs. rewrite Forall_forall in Hs.
  by destruct (Hs _ Hin) as [? _].
Qed.

(** The reader finds in a line of the batch the record that was written. *)
Lemma mapping_record_read r :
  written_ok r →
  record_line (H:=ascii_str)
    (mapping_record (txt_file r) (output_png r) (aes_key_b64 r) (payload_len r))
    (entry_of r).1 (entry_of r).2.
Proof.
  intros (Ht & (c & rest & Hc & Hsp & _) & Hp & Hk).
  apply one_field_no_tab in Ht, Hp, Hk.
  destruct (str_of_nat_digits (payload_len r))
    as (_ & _ & l2 & c' & _ & H2 & _ & Hc' & _ & _ & Hd).
  set (body := chars (txt_file r) ++ tab :: chars (output_png r) ++ tab
               :: chars (aes_key_b64 r) ++ tab :: chars (str_of_nat (payload_len r))).
  assert (str_strip (mapping_record (txt_file r) (output_png r) (aes_key_b64 r)
                       (payload_len r)) = text body) as Hstrip.
  { cbn [str_strip ascii_str].
    rewrite <- (text_chars (mapping_record _ _ _ _)), chars_mapping_record.
    fold body.
    apply (strip_newline body c
             (rest ++ tab :: chars (output_png r) ++ tab
              :: chars (aes_key_b64 r) ++ tab :: chars (str_of_nat (payload_len r)))
             (chars (txt_file r) ++ tab :: chars (output_png r) ++ tab
              :: chars (aes_key_b64 r) ++ tab :: l2) c'); try done.
    - unfold body. by rewrite Hc.
    - unfold body. rewrite H2.
      repeat first [rewrite <- app_assoc | rewrite <- app_comm_cons]. done. }
  split.
  - rewrite Hstrip. unfold body. by rewrite Hc.
  - exists (txt_file r), (output_png r), (aes_key_b64 r),
      (str_of_nat (payload_len r)), (Z.of_nat (payload_len r)).
    split; [|split; [apply int_of_str_str_of_nat|done]].
    unfold fields. rewrite Hstrip. cbn [str_split_tab ascii_str].
    unfold split_tab. fold (chars (text body)). rewrite chars_text. unfold body.
    rewrite !split_go_field, split_go_last by done.
    cbn [rev app]. by rewrite !text_chars.
Qed.

Lemma mapping_loop_written rs : ∀ mp,
  Forall written_ok rs →
  mapping_loop (H:=ascii_str)
    (map (λ r, mapping_record (txt_file r) (output_png r) (aes_key_b64 r)
                 (payload_len r)) rs) mp
  = Ok (foldl (λ mp r, <[(entry_of r).1 := (entry_of r).2]> mp) mp rs).
Proof.
  induction rs as [|r rs IH]; intros mp Hok; [done|].
  apply Forall_cons in Hok as [Hr Hrs]. cbn [map foldl].
  rewrite (mapping_loop_record _ _ _ _ _ (mapping_record_read r Hr)).
  by apply IH.
Qed.

(** X13 (src/encoder.py, lines 176-207; app.py, read_article_mapping).
    The mapping file that the batch writes is read back by the server in
    full.  When no file name, image path or key holds a tab or a line
    break, and every file name starts with an ASCII character that is not
    white space, the server reads the header and the records of the batch
    without an error, and its table is the one obtained by inserting, in the
    order of the batch, for each record the entry under the file name
    without its extension, with the image path, the key and the payload
    length that were written. *)
Theorem mapping_file_read (rs : list written) :
  Forall written_ok rs →
  read_article_mapping (H:=ascii_str) (mapping_file rs)
  = Ok (foldl (λ mp r, <[(entry_of r).1 := (entry_of r).2]> mp) ∅ rs).
Proof.
  intros Hok. unfold mapping_file, read_article_mapping.
  by apply mapping_loop_written.
Qed.

Lemma mapping_file_read_witness :
  Forall written_ok
    [Written "a.txt" "enc/a.png" "S0VZ" 43; Written "b c.txt" "enc/b c.png" "QUJD" 120]
  ∧ read_article_mapping (H:=ascii_str)
      (mapping_file
         [Written "a.txt" "enc/a.png" "S0VZ" 43;
          Written "b c.txt" "enc/b c.png" "QUJD" 120])
    = Ok (<["b c" := Entry "b c" "enc/b c.png" "QUJD" 120]>
            (<["a" := Entry "a" "enc/a.png" "S0VZ" 43]> ∅)).
Proof.
  assert (Forall written_ok
            [Written "a.txt" "enc/a.png" "S0VZ" 43;
             Written "b c.txt" "enc/b c.png" "QUJD" 120]) as Hok.
  { assert (∀ s, forallb (λ c, negb (bool_decide (c = tab ∨ c = newline
                                                   ∨ c = "013"%char))) (chars s) = true
                 → one_field s) as Hfield.
    { intros s Hs. apply Forall_forall. intros c Hin.
      rewrite forallb_forall in Hs. apply list_elem_of_In, Hs in Hin.
      apply negb_true_iff, bool_decide_eq_false in Hin. tauto. }
    constructor; [|constructor; [|constructor]].
    - repeat split; try (apply Hfield; reflexivity).
      exists "a"%char, (chars ".txt"). repeat split. vm_compute. lia.
    - repeat split; try (apply Hfield; reflexivity).
      exists "b"%char, (chars " c.txt"). repeat split. vm_compute. lia. }
  split; [exact Hok|]. exact (mapping_file_read _ Hok).
Defined.
End mapping_record_proofs.


(** * The passage and its options *)

Section passage_proofs.
Import article_parser.
Variable isspace : N → bool.

Lemma find_found sub : ∀ s i,
  find sub s = Some i → s = take i s ++ sub ++ drop (i + length sub) s.
Proof.
  induction s as [|c s IH]; intros i; cbn [find].
  - destruct (decide (sub `prefix_of` [])) as [[k Hk]|]; [|done].
    intros [= <-]. cbn [take app Nat.add]. rewrite Hk at 1.
    by rewrite Hk, drop_app_length.
  - destruct (decide (sub `prefix_of` c :: s)) as [[k Hk]|].
    + intros [= <-]. cbn [take app Nat.add]. rewrite Hk at 1.
      by rewrite Hk, drop_app_length.
    + destruct (find sub s) as [j|] eqn:Hj; [|done]. intros [= <-].
      cbn [take Nat.add drop app]. f_equal. by apply IH.
Qed.

Lemma find_occurs sub a : ∀ b, is_Some (find sub (a ++ sub ++ b)).
Proof.
  induction a as [|c a IH]; intros b.
  - cbn [app]. destruct (sub ++ b) as [|d l] eqn:Heq; cbn [find].
    + destruct (decide (sub `prefix_of` [])) as [|Hn]; [done|].
      destruct Hn. exists b. by rewrite Heq.
    + destruct (decide (sub `prefix_of` d :: l)) as [|Hn]; [done|].
      destruct Hn. exists b. by rewrite Heq.
  - cbn [app find]. destruct (decide (sub `prefix_of` c :: a ++ sub ++ b)); [done|].
    destruct (IH b) as [j ->]. done.
Qed.

Lemma contains_spec sub s : contains sub s = true ↔ ∃ a b, s = a ++ sub ++ b.
Proof.
  unfold contains. rewrite bool_decide_eq_true. split.
  - intros [i Hi]. eexists _, _. by apply find_found.
  - intros (a & b & ->). apply find_occurs.
Qed.

Lemma marker2_marker s : contains marker2 s = true → contains marker s = true.
Proof.
  rewrite !contains_spec. intros (a & b & ->). exists (a ++ [LF]), b.
  by rewrite <- app_assoc.
Qed.

Lemma lstrip_split l : ∃ w, l = w ++ lstrip isspace l ∧ blank isspace w.
Proof.
  induction l as [|c l (w & Hw & Hb)]; [exists []; by split; [|constructor]|].
  cbn [lstrip]. destruct (isspace c) eqn:Hc.
  - exists (c :: w). split; [by rewrite Hw at 1|by constructor].
  - exists []. by split; [|constructor].
Qed.

Lemma lstrip_head l :
  match lstrip isspace l with c :: _ => isspace c = false | [] => True end.
Proof.
  induction l as [|c l IH]; [done|]. cbn [lstrip].
  by destruct (isspace c) eqn:Hc.
Qed.

Lemma lstrip_keeps c l : isspace c = false → lstrip isspace (c :: l) = c :: l.
Proof. intros Hc. cbn [lstrip]. by rewrite Hc. Qed.

Lemma lstrip_fixed l :
  match l with c :: _ => isspace c = false | [] => True end →
  lstrip isspace l = l.
Proof. destruct l as [|c l]; [done|]. apply lstrip_keeps. Qed.

Lemma lstrip_idem l : lstrip isspace (lstrip isspace l) = lstrip isspace l.
Proof. apply lstrip_fixed, lstrip_head. Qed.

Lemma rstrip_split l : ∃ w, l = rstrip isspace l ++ w ∧ blank isspace w.
Proof.
  destruct (lstrip_split (rev l)) as (w & Hw & Hb). exists (rev w). split.
  - unfold rstrip. by rewrite <- rev_app_distr, <- Hw, rev_involutive.
  - unfold blank in *. apply Forall_forall. intros c Hc.
    rewrite Forall_forall in Hb. apply Hb.
    by apply list_elem_of_In, in_rev, list_elem_of_In.
Qed.

Lemma rstrip_idem l : rstrip isspace (rstrip isspace l) = rstrip isspace l.
Proof. unfold rstrip. by rewrite rev_involutive, lstrip_idem. Qed.

(** A text without white space at its end has none at the end of any of
    its ends. *)
Lemma rstrip_suffix s a b :
  rstrip isspace s = s → s = a ++ b → b ≠ [] → rstrip isspace b = b.
Proof.
  intros Hs -> Hb. unfold rstrip in *.
  assert (lstrip isspace (rev (a ++ b)) = rev (a ++ b)) as Hfix.
  { rewrite <- Hs at 2. by rewrite rev_involutive. }
  rewrite rev_app_distr in Hfix.
  destruct (rev b) as [|c t] eqn:Hrb.
  { destruct Hb. by rewrite <- (rev_involutive b), Hrb. }
  pose proof (lstrip_head ((c :: t) ++ rev a)) as Hh. rewrite Hfix in Hh.
  cbn [app] in Hh. rewrite lstrip_keeps by done.
  by rewrite <- Hrb, rev_involutive.
Qed.

Lemma strip_fixed l : rstrip isspace (strip isspace l) = strip isspace l.
Proof. apply rstrip_idem. Qed.

Lemma lstrip_strip l : lstrip isspace (strip isspace l) = strip isspace l.
Proof.
  unfold strip. destruct (rstrip_split (lstrip isspace l)) as (w & Hw & _).
  apply lstrip_fixed. pose proof (lstrip_head l) as Hh. rewrite Hw in Hh.
  by destruct (rstrip isspace (lstrip isspace l)).
Qed.

Lemma strip_idem l : strip isspace (strip isspace l) = strip isspace l.
Proof. unfold strip at 1. by rewrite lstrip_strip, strip_fixed. Qed.

(** X14 (src/article_parser.py, split_passage_and_options, lines 56-89).
    When the marker, a line that reads [OPTIONS], occurs in the stripped
    passage, the function does not raise, it cuts at the first occurrence,
    and it loses nothing but white space: the stripped passage is the
    article, white space, the marker, white space, and the text that follows
    the tag in the options block.  The article has no white space at its
    end and that text has none at either end. *)
Theorem split_at_first_marker (p : list N) :
  contains marker (strip isspace p) = true →
  ∃ article w1 w2 body,
    split_passage_and_options isspace (Some p) = Ok (article, OPTIONS_TAG ++ body)
    ∧ strip isspace p = article ++ w1 ++ marker ++ w2 ++ body
    ∧ find marker (strip isspace p) = Some (length (article ++ w1))
    ∧ blank isspace w1 ∧ blank isspace w2
    ∧ rstrip isspace article = article ∧ strip isspace body = body.
Proof.
  intros Hc. cbn [split_passage_and_options]. rewrite Hc.
  unfold contains in Hc. apply bool_decide_eq_true in Hc as [i Hi].
  unfold split_1. rewrite Hi.
  set (s := strip isspace p) in *.
  pose proof (find_found _ _ _ Hi) as Hs.
  set (rest := drop (i + length marker) s) in *.
  destruct (rstrip_split (take i s)) as (w1 & Hw1 & Hb1).
  destruct (lstrip_split rest) as (w2 & Hw2 & Hb2).
  assert (strip isspace rest = lstrip isspace rest) as Hrest.
  { unfold strip. destruct (lstrip isspace rest) as [|c l] eqn:Hl; [done|].
    apply (rstrip_suffix s (take i s ++ marker ++ w2)); [apply strip_fixed| |done].
    rewrite Hs at 1. rewrite Hw2 at 1. by rewrite <- !app_assoc. }
  exists (rstrip isspace (take i s)), w1, w2, (strip isspace rest).
  split; [done|]. split; [|split; [|split; [done|split; [done|split]]]].
  - rewrite Hs at 1. rewrite Hw1 at 1. rewrite Hw2 at 1.
    by rewrite Hrest, <- !app_assoc.
  - rewrite <- Hw1. f_equal. rewrite length_take. symmetry. apply Nat.min_l.
    apply (f_equal length) in Hs. rewrite !length_app in Hs.
    destruct (Nat.le_gt_cases i (length s)) as [|Hgt]; [done|].
    rewrite take_ge in Hs by lia. unfold marker in Hs. cbn [length] in Hs. lia.
  - apply rstrip_idem.
  - apply strip_idem.
Qed.

(** X15 (src/article_parser.py, split_passage_and_options, lines 73-89).
    When the marker does not occur in the stripped passage, the result is
    the stripped passage with an empty options block.  The later test for
    the marker after a blank line never decides: a passage with that longer
    marker has the marker itself and is cut by the first test. *)
Theorem no_marker_no_options (p : list N) :
  contains marker (strip isspace p) = false →
  split_passage_and_options isspace (Some p) = Ok (strip isspace p, []).
Proof.
  intros Hc. cbn [split_passage_and_options]. rewrite Hc.
  destruct (contains marker2 (strip isspace p)) eqn:H2; [|done].
  apply marker2_marker in H2. by rewrite H2 in Hc.
Qed.

End passage_proofs.

Section passage_examples.
Import article_parser.

Lemma split_at_first_marker_witness :
  contains marker
    (strip unicode_isspace (lit "  Story." ++ [LF; LF] ++ lit "[OPTIONS]" ++ [LF]
                          ++ lit "A. one " ++ [LF])) = true
  ∧ ∃ article w1 w2 body,
      split_passage_and_options unicode_isspace
        (Some (lit "  Story." ++ [LF; LF] ++ lit "[OPTIONS]" ++ [LF]
               ++ lit "A. one " ++ [LF]))
      = Ok (article, OPTIONS_TAG ++ body)
      ∧ strip unicode_isspace (lit "  Story." ++ [LF; LF] ++ lit "[OPTIONS]" ++ [LF]
                             ++ lit "A. one " ++ [LF])
        = article ++ w1 ++ marker ++ w2 ++ body
      ∧ find marker
          (strip unicode_isspace (lit "  Story." ++ [LF; LF] ++ lit "[OPTIONS]" ++ [LF]
                                ++ lit "A. one " ++ [LF]))
        = Some (length (article ++ w1))
      ∧ blank unicode_isspace w1 ∧ blank unicode_isspace w2
      ∧ rstrip unicode_isspace article = article ∧ strip unicode_isspace body = body.
Proof.
  split; [vm_compute; reflexivity|].
  apply (split_at_first_marker unicode_isspace). vm_compute. reflexivity.
Defined.

Lemma no_marker_no_options_witness :
  contains marker (strip unicode_isspace (lit " Story. [OPTIONS] A. one ")) = false
  ∧ split_passage_and_options unicode_isspace (Some (lit " Story. [OPTIONS] A. one "))
    = Ok (lit "Story. [OPTIONS] A. one", []).
Proof.
  split; [vm_compute; reflexivity|].
  rewrite (no_marker_no_options unicode_isspace) by (vm_compute; reflexivity).
  vm_compute. reflexivity.
Defined.

(** The split of a passage whose marker follows a blank line. *)
Example split_blank_line_marker :
  split_passage_and_options unicode_isspace
    (Some (lit "  Story." ++ [LF; LF] ++ lit "[OPTIONS]" ++ [LF] ++ lit "A. one " ++ [LF]))
  = Ok (lit "Story.", lit "[OPTIONS]" ++ [LF] ++ lit "A. one").
Proof. vm_compute. reflexivity. Qed.
End passage_examples.
